(** * Transaction lifecycle tracker ([src/solutions/emidesejas.ts])

    A shallow embedding of the tracker returned by [emidesejas(api, outputApi)]
    and the verification of its specification.

    The tracker closes over three pieces of mutable state:
    - [blocks], a JS [Map] from block hash to [{ parent }];
    - [trackedTransactions], a JS [Map] from transaction to
      [{ invalidInBlock : Set<string> }], whose iteration order is the
      insertion order of its keys;
    - [lastFinalizedBlock : string | null].

    Every call the tracker makes on [api] (the provider) or on [outputApi]
    (the sink) is recorded, in program order, in a trace of [Call]s. *)

From stdpp Require Import gmap strings list fin_maps.

Open Scope string_scope.
Open Scope list_scope.

(** ** Interfaces taken from [../types] *)

(** The provider's queries. [getBody], [isTxValid] and [isTxSuccessful] are
    synchronous lookups of a stateless service (section 5 of the
    specification), so each is a function of its arguments; [unpin] returns
    nothing and only shows in the trace. *)
Record API := {
  getBody : string → list string;
  isTxValid : string → string → bool;
  isTxSuccessful : string → string → bool;
}.

(** The second argument of [onTxSettled] and [onTxDone]. *)
Inductive Settled :=
| Valid (blockHash : string) (successful : bool)
| Invalid (blockHash : string).

(** One call made by the tracker on the provider or on the sink. *)
Inductive Call :=
| GetBody (blockHash : string)
| IsTxValid (blockHash tx : string)
| IsTxSuccessful (blockHash tx : string)
| Unpin (blocksToUnpin : list string)
| OnTxSettled (tx : string) (state : Settled)
| OnTxDone (tx : string) (state : Settled).

Inductive IncomingEvent :=
| NewBlock (blockHash parent : string)
| NewTransaction (value : string)
| Finalized (blockHash : string).

Global Instance Settled_eq_dec : EqDecision Settled.
Proof. solve_decision. Defined.
Global Instance Call_eq_dec : EqDecision Call.
Proof. solve_decision. Defined.
Global Instance IncomingEvent_eq_dec : EqDecision IncomingEvent.
Proof. solve_decision. Defined.

(** ** The transaction registry: an insertion-ordered JS [Map] *)

(** Entries in insertion order; a JS [Map] never holds a key twice, which
    is the invariant [tx_wf] below. *)
Abbreviation Tracked := (list (string * gset string)).

Definition tx_keys (m : Tracked) : list string := m.*1.

Definition tx_wf (m : Tracked) : Prop := NoDup (tx_keys m).

Fixpoint tx_get (m : Tracked) (tx : string) : option (gset string) :=
  match m with
  | [] => None
  | (k, v) :: m' => if decide (k = tx) then Some v else tx_get m' tx
  end.

Definition tx_has (m : Tracked) (tx : string) : bool :=
  bool_decide (is_Some (tx_get m tx)).

(** [Map.prototype.set]: an existing key keeps its position and takes the
    new value, a new key goes to the end. *)
Fixpoint tx_set (m : Tracked) (tx : string) (v : gset string) : Tracked :=
  match m with
  | [] => [(tx, v)]
  | (k, w) :: m' =>
      if decide (k = tx) then (k, v) :: m' else (k, w) :: tx_set m' tx v
  end.

(** [Map.prototype.delete]. *)
Definition tx_delete (m : Tracked) (tx : string) : Tracked :=
  filter (λ e, e.1 ≠ tx) m.

(** [m.get(tx)?.invalidInBlock.add(blockHash)]: the set stored under [tx]
    is mutated in place; nothing happens when [tx] is not a key. *)
Fixpoint tx_add_invalid (m : Tracked) (tx blockHash : string) : Tracked :=
  match m with
  | [] => []
  | (k, v) :: m' =>
      if decide (k = tx) then (k, v ∪ {[blockHash]}) :: m'
      else (k, v) :: tx_add_invalid m' tx blockHash
  end.

(** [Map.prototype.forEach] with a callback that reads and writes the map
    it iterates. The keys are visited in insertion order and a key deleted
    before its turn is skipped. (Keys added during the iteration would be
    visited as well; neither callback of the tracker adds one.) *)
Definition forEach {S : Type}
    (cb : string → Tracked * S → Tracked * S) (m : Tracked) (s : S)
  : Tracked * S :=
  foldl (λ acc tx, if tx_has acc.1 tx then cb tx acc else acc)
        (m, s) (tx_keys m).

(** ** Tracker state *)

Record State := {
  blocks : gmap string string;
  trackedTransactions : Tracked;
  lastFinalizedBlock : option string;
}.

Definition init : State :=
  {| blocks := ∅; trackedTransactions := []; lastFinalizedBlock := None |}.

Definition wf (st : State) : Prop := tx_wf (trackedTransactions st).

Section Tracker.

Variable api : API.

(** *** [onNewBlock] *)

(** The body of the [forEach] of lines 51-62. The argument of
    [onTxSettled] is evaluated before the call, so [isTxSuccessful] is
    queried first. *)
Definition onNewBlock_cb (blockHash : string) (body : gset string)
    (tx : string) (acc : Tracked * list Call) : Tracked * list Call :=
  let '(m, tr) := acc in
  if bool_decide (tx ∈ body) then
    (m, tr ++ [IsTxSuccessful blockHash tx;
               OnTxSettled tx (Valid blockHash (isTxSuccessful api blockHash tx))])
  else if negb (isTxValid api blockHash tx) then
    (tx_add_invalid m tx blockHash,
     tr ++ [IsTxValid blockHash tx; OnTxSettled tx (Invalid blockHash)])
  else (m, tr ++ [IsTxValid blockHash tx]).

Definition onNewBlock (st : State) (blockHash parent : string)
  : State * list Call :=
  let blocks1 := <[blockHash := parent]> (blocks st) in
  let body : gset string := list_to_set (getBody api blockHash) in
  let '(m, tr) :=
    forEach (onNewBlock_cb blockHash body) (trackedTransactions st)
            [GetBody blockHash] in
  ({| blocks := blocks1; trackedTransactions := m;
      lastFinalizedBlock := lastFinalizedBlock st |}, tr).

(** *** [onNewTx] *)

Definition onNewTx (st : State) (transaction : string) : State * list Call :=
  ({| blocks := blocks st;
      trackedTransactions := tx_set (trackedTransactions st) transaction ∅;
      lastFinalizedBlock := lastFinalizedBlock st |}, []).

(** *** [onFinalized] *)

(** The body of the [forEach] of lines 80-92. [blockHash] is the block
    carried by the event, [currentBlock] the block the walk is at. *)
Definition onFinalized_cb (blockHash currentBlock : string) (body : gset string)
    (tx : string) (acc : Tracked * list Call) : Tracked * list Call :=
  let '(m, tr) := acc in
  if bool_decide (tx ∈ body) then
    (tx_delete m tx,
     tr ++ [IsTxSuccessful currentBlock tx;
            OnTxDone tx (Valid currentBlock (isTxSuccessful api currentBlock tx))])
  else
    match tx_get m tx with
    | Some inv =>
        if bool_decide (blockHash ∈ inv)
        then (m, tr ++ [OnTxDone tx (Invalid currentBlock)])
        else (m, tr)
    | None => (m, tr)
    end.

(** Lines 78-92: what one iteration of the [do ... while] does to the
    registry and to the sink, for the block [currentBlock]. *)
Definition visit (blockHash currentBlock : string) (m : Tracked)
  : Tracked * list Call :=
  let body : gset string := list_to_set (getBody api currentBlock) in
  forEach (onFinalized_cb blockHash currentBlock body) m [GetBody currentBlock].

(** The [do ... while] loop of lines 77-109. [lastFin] is the value of
    [lastFinalizedBlock] after line 72, so it is never [null]. An iteration
    goes round again only after deleting [currentBlock] from [blocks]; the
    recursion is on a counter that [onFinalized] starts above the size of
    [blocks], and [None] stands for a loop that has not ended when the
    counter runs out ([walk_spec] shows that this never happens). [parent]
    is a [string], so [!currentBlock] holds for the empty string only. *)
Fixpoint walk (fuel : nat) (blockHash lastFin currentBlock : string)
    (blks : gmap string string) (m : Tracked) (blocksToUnpin : list string)
  : option (gmap string string * Tracked * list string * list Call) :=
  match fuel with
  | 0 => None
  | S fuel' =>
      let '(m1, tr) := visit blockHash currentBlock m in
      let blockData := blks !! currentBlock in
      let blocksToUnpin1 := blocksToUnpin ++ [currentBlock] in
      match blockData with
      | None => Some (blks, m1, blocksToUnpin1, tr)
      | Some parent =>
          let blks1 := delete currentBlock blks in
          if decide (parent = EmptyString) then Some (blks1, m1, blocksToUnpin1, tr)
          else if decide (parent = lastFin)
          then Some (blks1, m1, blocksToUnpin1, tr)
          else
            match walk fuel' blockHash lastFin parent blks1 m1 blocksToUnpin1 with
            | Some (blks2, m2, u, tr') => Some (blks2, m2, u, tr ++ tr')
            | None => None
            end
      end
  end.

Definition onFinalized (st : State) (blockHash : string)
  : option (State * list Call) :=
  let lastFin := default blockHash (lastFinalizedBlock st) in
  match walk (S (size (blocks st))) blockHash lastFin blockHash
             (blocks st) (trackedTransactions st) [] with
  | Some (blks, m, blocksToUnpin, tr) =>
      Some ({| blocks := blks; trackedTransactions := m;
               lastFinalizedBlock := Some blockHash |},
            tr ++ [Unpin blocksToUnpin])
  | None => None
  end.

(** *** The event dispatcher (lines 116-129) *)

Definition handle (st : State) (event : IncomingEvent)
  : option (State * list Call) :=
  match event with
  | NewBlock blockHash parent => Some (onNewBlock st blockHash parent)
  | NewTransaction value => Some (onNewTx st value)
  | Finalized blockHash => onFinalized st blockHash
  end.

(** A whole event stream, handled in order; the traces are concatenated. *)
Fixpoint run (st : State) (events : list IncomingEvent)
  : option (State * list Call) :=
  match events with
  | [] => Some (st, [])
  | e :: events' =>
      match handle st e with
      | None => None
      | Some (st1, tr1) =>
          match run st1 events' with
          | None => None
          | Some (st2, tr2) => Some (st2, tr1 ++ tr2)
          end
      end
  end.

End Tracker.

(** ** What the handlers compute, entry by entry

    Closed forms of the two [forEach] loops and of the walk, used to state
    and prove the properties below. They are proved equal to the handlers
    above ([onNewBlock_eq], [visit_eq], [walk_spec]). *)

Section Denotation.

Variable api : API.

(** The calls [onNewBlock] makes for one registry entry. *)
Definition settle_calls (blockHash : string) (e : string * gset string)
  : list Call :=
  if bool_decide (e.1 ∈ getBody api blockHash) then
    [IsTxSuccessful blockHash e.1;
     OnTxSettled e.1 (Valid blockHash (isTxSuccessful api blockHash e.1))]
  else if isTxValid api blockHash e.1 then [IsTxValid blockHash e.1]
  else [IsTxValid blockHash e.1; OnTxSettled e.1 (Invalid blockHash)].

(** The registry entry [onNewBlock] leaves for one entry. *)
Definition settle_entry (blockHash : string) (e : string * gset string)
  : string * gset string :=
  if bool_decide (e.1 ∈ getBody api blockHash) then e
  else if isTxValid api blockHash e.1 then e
  else (e.1, e.2 ∪ {[blockHash]}).

(** The calls one iteration of the walk makes for one registry entry. *)
Definition done_calls (blockHash currentBlock : string)
    (e : string * gset string) : list Call :=
  if bool_decide (e.1 ∈ getBody api currentBlock) then
    [IsTxSuccessful currentBlock e.1;
     OnTxDone e.1 (Valid currentBlock (isTxSuccessful api currentBlock e.1))]
  else if bool_decide (blockHash ∈ e.2) then [OnTxDone e.1 (Invalid currentBlock)]
  else [].

(** The entries that survive the visit of [currentBlock]. *)
Definition survivors (currentBlock : string) (m : Tracked) : Tracked :=
  filter (λ e, e.1 ∉ getBody api currentBlock) m.

(** The calls of a walk that visits the blocks [visited], in that order. *)
Fixpoint walk_calls (blockHash : string) (visited : list string) (m : Tracked)
  : list Call :=
  match visited with
  | [] => []
  | currentBlock :: visited' =>
      (GetBody currentBlock :: (m ≫= done_calls blockHash currentBlock))
      ++ walk_calls blockHash visited' (survivors currentBlock m)
  end.

(** The registry after a walk that visits the blocks [visited]. *)
Definition walk_registry (visited : list string) (m : Tracked) : Tracked :=
  foldl (λ m currentBlock, survivors currentBlock m) m visited.

End Denotation.

(** The blocks a finalization walk visits, after section 4.4 of the
    specification: start at the finalized block; record the current block;
    look its parent up in the index and remove the block from the index;
    stop when no parent is known (the block is not in the index, or its
    parent is the empty string) or when the parent is the cursor; otherwise
    go on with the parent. *)
Inductive chain_walk (cursor : string)
  : gmap string string → string → list string → Prop :=
| cw_absent blks cur :
    blks !! cur = None → chain_walk cursor blks cur [cur]
| cw_no_parent blks cur :
    blks !! cur = Some EmptyString → chain_walk cursor blks cur [cur]
| cw_cursor blks cur :
    blks !! cur = Some cursor → chain_walk cursor blks cur [cur]
| cw_step blks cur parent l :
    blks !! cur = Some parent → parent ≠ EmptyString → parent ≠ cursor →
    chain_walk cursor (delete cur blks) parent l →
    chain_walk cursor blks cur (cur :: l).

(** Every block of [l] after the first is the parent, in the index
    [blks], of the block before it. *)
Fixpoint parent_chain (blks : gmap string string) (l : list string) : Prop :=
  match l with
  | a :: (b :: _) as l' => blks !! a = Some b ∧ parent_chain blks l'
  | _ => True
  end.

(** ** Reading a trace *)

Definition getBody_args (tr : list Call) : list string :=
  omap (λ c, match c with GetBody b => Some b | _ => None end) tr.

Definition unpin_args (tr : list Call) : list (list string) :=
  omap (λ c, match c with Unpin l => Some l | _ => None end) tr.

(** The transactions of the [onTxSettled] calls of a trace, in order. *)
Definition settled_txs (tr : list Call) : list string :=
  omap (λ c, match c with OnTxSettled tx _ => Some tx | _ => None end) tr.

(** The transactions of the [onTxDone] calls of a trace, in order. *)
Definition done_txs (tr : list Call) : list string :=
  omap (λ c, match c with OnTxDone tx _ => Some tx | _ => None end) tr.

(** The transactions of all sink calls of a trace, in order. *)
Definition sink_txs (tr : list Call) : list string :=
  omap (λ c, match c with
             | OnTxSettled tx _ | OnTxDone tx _ => Some tx
             | _ => None
             end) tr.

Definition count_occ_of {A : Type} `{EqDecision A} (x : A) (l : list A) : nat :=
  length (filter (λ y, y = x) l).

(** A call a visit makes for a transaction: a success query or a done call. *)
Definition is_visit_call (c : Call) : Prop :=
  match c with
  | IsTxSuccessful _ _ | OnTxDone _ _ => True
  | _ => False
  end.

(** A call that concerns the transaction [tx]. *)
Definition mentions (tx : string) (c : Call) : Prop :=
  match c with
  | IsTxValid _ t | IsTxSuccessful _ t | OnTxSettled t _ | OnTxDone t _ => t = tx
  | _ => False
  end.

Global Instance mentions_dec tx c : Decision (mentions tx c).
Proof. destruct c; simpl; apply _. Defined.

Global Instance is_visit_call_dec c : Decision (is_visit_call c).
Proof. destruct c; simpl; apply _. Defined.

(** The calls of a trace that concern [tx], in order. *)
Definition calls_for (tx : string) (tr : list Call) : list Call :=
  filter (mentions tx) tr.

(** The calls a walk can make before it unpins: body fetches, done calls,
    and success queries for a transaction of the queried block. *)
Definition is_walk_call (api : API) (c : Call) : Prop :=
  match c with
  | GetBody _ | OnTxDone _ _ => True
  | IsTxSuccessful b t => t ∈ getBody api b
  | _ => False
  end.

Definition is_validity_query (c : Call) : Prop :=
  match c with IsTxValid _ _ => True | _ => False end.

(** ** Concrete providers, states and event streams *)

(** A provider for the chain B0 <- B1 <- B2 <- B3 in which B1 holds T1,
    B2 holds T2, and no transaction is ever invalid. *)
Definition chain_api : API :=
  {| getBody := λ b, if decide (b = "B1") then ["T1"]
                     else if decide (b = "B2") then ["T2"] else [];
     isTxValid := λ _ _, true;
     isTxSuccessful := λ _ _, true |}.

(** A provider whose blocks are all empty and that reports the
    transaction T invalid in B2 and in B3, and nothing else invalid. *)
Definition invalid_api : API :=
  {| getBody := λ _, [];
     isTxValid := λ b tx, negb (bool_decide (tx = "T" ∧ b ∈ ["B2"; "B3"]));
     isTxSuccessful := λ _ _, false |}.

(** A provider whose blocks are all empty and that reports every
    transaction invalid in every block. *)
Definition invalid_api_all : API :=
  {| getBody := λ _, [];
     isTxValid := λ _ _, false;
     isTxSuccessful := λ _ _, false |}.



(** T1 then T2 registered, nothing else known. *)
Definition st_two : State :=
  {| blocks := ∅;
     trackedTransactions := [("T1", ∅); ("T2", ∅)];
     lastFinalizedBlock := None |}.

(** T0 and T registered, T recorded invalid in B2; B1 <- B2 pinned on
    top of B0, which was finalized. *)
Definition st_invalid : State :=
  {| blocks := {["B1" := "B0"; "B2" := "B1"]};
     trackedTransactions := [("T0", ∅); ("T", {["B2"]})];
     lastFinalizedBlock := Some "B0" |}.

(** The pinned chain B1 <- B2 <- B3 on top of B0. *)
Definition chain_blocks : gmap string string :=
  {["B1" := "B0"; "B2" := "B1"; "B3" := "B2"]}.

(** The chain pinned after B0 was finalized. *)
Definition st_chain : State :=
  {| blocks := chain_blocks;
     trackedTransactions := [("T1", ∅); ("T2", ∅)];
     lastFinalizedBlock := Some "B0" |}.

(** The chain pinned, nothing finalized so far. *)
Definition st_chain_fresh : State :=
  {| blocks := chain_blocks;
     trackedTransactions := [];
     lastFinalizedBlock := None |}.

(** What finalized(B2) leaves of [st_invalid], and the calls it makes under
    [invalid_api]. *)
Definition st_invalid_done : State :=
  {| blocks := ∅;
     trackedTransactions := [("T0", ∅); ("T", {["B2"]})];
     lastFinalizedBlock := Some "B2" |}.

Definition tr_invalid_done : list Call :=
  [GetBody "B2"; OnTxDone "T" (Invalid "B2");
   GetBody "B1"; OnTxDone "T" (Invalid "B1");
   Unpin ["B2"; "B1"]].

(** What finalized(B3) leaves of [st_chain], and the calls it makes under
    [chain_api]. *)
Definition st_chain_done : State :=
  {| blocks := ∅; trackedTransactions := []; lastFinalizedBlock := Some "B3" |}.

Definition tr_chain_done : list Call :=
  [GetBody "B3";
   GetBody "B2"; IsTxSuccessful "B2" "T2"; OnTxDone "T2" (Valid "B2" true);
   GetBody "B1"; IsTxSuccessful "B1" "T1"; OnTxDone "T1" (Valid "B1" true);
   Unpin ["B3"; "B2"; "B1"]].

(** ** More ways to read a trace and an event stream *)

(** The transactions of the provider's per-transaction queries, in order. *)
Definition query_txs (tr : list Call) : list string :=
  omap (λ c, match c with
             | IsTxValid _ t | IsTxSuccessful _ t => Some t
             | _ => None
             end) tr.

(** The block a call is about; [unpin] takes a list of blocks instead. *)
Definition call_block (c : Call) : option string :=
  match c with
  | GetBody b | IsTxValid b _ | IsTxSuccessful b _ => Some b
  | OnTxSettled _ (Valid b _) | OnTxSettled _ (Invalid b) => Some b
  | OnTxDone _ (Valid b _) | OnTxDone _ (Invalid b) => Some b
  | Unpin _ => None
  end.

(** A call that agrees with the provider: a success query or a valid
    outcome is for a transaction of the block's body and carries the
    provider's success answer; a validity query or an invalid outcome is
    for a transaction outside the body, and an invalid settlement is for
    one the provider reports invalid in the block. *)
Definition sound_call (api : API) (c : Call) : Prop :=
  match c with
  | GetBody _ | Unpin _ => True
  | IsTxSuccessful b t => t ∈ getBody api b
  | IsTxValid b t => t ∉ getBody api b
  | OnTxSettled t (Valid b s) | OnTxDone t (Valid b s) =>
      t ∈ getBody api b ∧ s = isTxSuccessful api b t
  | OnTxSettled t (Invalid b) =>
      (t ∉ getBody api b) ∧ isTxValid api b t = false
  | OnTxDone t (Invalid b) => t ∉ getBody api b
  end.

(** A valid done call for [tx]. *)
Definition is_valid_done_of (tx : string) (c : Call) : Prop :=
  match c with
  | OnTxDone t (Valid _ _) => t = tx
  | _ => False
  end.

Global Instance is_valid_done_of_dec tx c : Decision (is_valid_done_of tx c).
Proof. destruct c as [| | | | |t []]; simpl; apply _. Defined.

(** The number of valid done calls for [tx] in a trace. *)
Definition valid_done_count (tx : string) (tr : list Call) : nat :=
  length (filter (is_valid_done_of tx) tr).

(** The cursor after an event stream: the block of its last finalized
    event, or the cursor it started with. *)
Fixpoint last_finalized (cursor : option string) (events : list IncomingEvent)
  : option string :=
  match events with
  | [] => cursor
  | Finalized b :: events' => last_finalized (Some b) events'
  | _ :: events' => last_finalized cursor events'
  end.

(** Every block of an invalidity set was reported in a settled call of
    the trace. *)
Definition recorded_was_settled (st : State) (tr : list Call) : Prop :=
  ∀ (tx : string) (inv : gset string) (b : string),
    tx_get (trackedTransactions st) tx = Some inv → b ∈ inv →
    OnTxSettled tx (Invalid b) ∈ tr.

(** The done calls of a trace, in order, each as the transaction and the
    block it is reported for. *)
Definition done_at (tr : list Call) : list (string * string) :=
  omap (λ c, match c with
             | OnTxDone tx (Valid b _) | OnTxDone tx (Invalid b) => Some (tx, b)
             | _ => None
             end) tr.

(** The transactions that get a done call while the walk of a finalized
    event for [blockHash] is at [currentBlock], in the order of the calls:
    the registered transactions, in registry order, that are in the body of
    [currentBlock] or have [blockHash] in their invalidity set. *)
Definition done_group (api : API) (blockHash currentBlock : string) (m : Tracked)
  : list string :=
  (filter (λ e, e.1 ∈ getBody api currentBlock ∨ blockHash ∈ e.2) m).*1.

(** One such group for each block of [visited], the registry losing after
    each block the transactions of its body. *)
Fixpoint walk_groups (api : API) (blockHash : string) (visited : list string)
    (m : Tracked) : list (list string) :=
  match visited with
  | [] => []
  | currentBlock :: visited' =>
      done_group api blockHash currentBlock m
      :: walk_groups api blockHash visited' (survivors api currentBlock m)
  end.

(** Decide a closed, decidable proposition by evaluation. *)
Ltac by_compute := apply (bool_decide_unpack _); vm_compute; exact I.

(** ** The registry operations on a registry without repeated keys *)

Section Registry.

Implicit Types (m pre rest : Tracked) (tx k : string) (v : gset string).

Lemma tx_keys_app pre rest : tx_keys (pre ++ rest) = tx_keys pre ++ tx_keys rest.
Proof. unfold tx_keys. by rewrite fmap_app. Qed.

Lemma tx_get_None m tx : tx_get m tx = None ↔ tx ∉ tx_keys m.
Proof.
  induction m as [|[k v] m IH]; simpl.
  - split; [intros _; apply not_elem_of_nil | done].
  - rewrite not_elem_of_cons. destruct (decide (k = tx)) as [->|Hne].
    + split; [done | intros [? _]; done].
    + rewrite IH. split; [intros ?; split; [congruence | done] | by intros [_ ?]].
Qed.

Lemma tx_get_Some_key m tx v : tx_get m tx = Some v → tx ∈ tx_keys m.
Proof.
  intros H. destruct (decide (tx ∈ tx_keys m)) as [|Hn]; [done|].
  apply tx_get_None in Hn. congruence.
Qed.

Lemma tx_get_elem_of m tx v : tx_get m tx = Some v → (tx, v) ∈ m.
Proof.
  induction m as [|[k w] m IH]; simpl; [done|].
  destruct (decide (k = tx)) as [->|Hne].
  - intros [= ->]. apply list_elem_of_here.
  - intros H. apply list_elem_of_further. auto.
Qed.

Lemma tx_get_of_elem m tx v : tx_wf m → (tx, v) ∈ m → tx_get m tx = Some v.
Proof.
  unfold tx_wf, tx_keys. induction m as [|[k w] m IH]; simpl.
  - intros _ H. by apply elem_of_nil in H.
  - rewrite NoDup_cons. intros [Hk Hnd] [Heq|Hin]%elem_of_cons.
    + injection Heq as -> ->. by rewrite decide_True.
    + destruct (decide (k = tx)) as [->|Hne]; [|by apply IH].
      exfalso. apply Hk. apply (list_elem_of_fmap_2 fst) in Hin. exact Hin.
Qed.

Lemma tx_get_app_l pre rest tx :
  tx ∉ tx_keys pre → tx_get (pre ++ rest) tx = tx_get rest tx.
Proof.
  induction pre as [|[k w] pre IH]; simpl; [done|].
  rewrite not_elem_of_cons. intros [Hne Hn].
  rewrite decide_False by congruence. by apply IH.
Qed.

Lemma tx_get_mid pre rest k v :
  k ∉ tx_keys pre → tx_get (pre ++ (k, v) :: rest) k = Some v.
Proof. intros H. rewrite tx_get_app_l by done. simpl. by rewrite decide_True. Qed.

Lemma tx_has_mid pre rest k v : tx_has (pre ++ (k, v) :: rest) k = true.
Proof.
  unfold tx_has. apply bool_decide_eq_true.
  destruct (tx_get (pre ++ (k, v) :: rest) k) eqn:E; [by eexists|].
  apply tx_get_None in E. exfalso. apply E.
  rewrite tx_keys_app. apply elem_of_app. right. apply list_elem_of_here.
Qed.

Lemma tx_add_invalid_mid pre rest k v b :
  k ∉ tx_keys pre →
  tx_add_invalid (pre ++ (k, v) :: rest) k b = pre ++ (k, v ∪ {[b]}) :: rest.
Proof.
  induction pre as [|[k' w] pre IH]; simpl.
  - intros _. by rewrite decide_True.
  - rewrite not_elem_of_cons. intros [Hne Hn].
    rewrite decide_False by congruence. by rewrite IH.
Qed.

Lemma tx_delete_notin m tx : tx ∉ tx_keys m → tx_delete m tx = m.
Proof.
  unfold tx_delete. induction m as [|[k w] m IH]; simpl; [done|].
  rewrite not_elem_of_cons. intros [Hne Hn].
  rewrite filter_cons_True by (simpl; congruence). by rewrite IH.
Qed.

Lemma tx_delete_mid pre rest k v :
  k ∉ tx_keys pre → k ∉ tx_keys rest →
  tx_delete (pre ++ (k, v) :: rest) k = pre ++ rest.
Proof.
  intros Hp Hr. unfold tx_delete. rewrite filter_app, filter_cons_False by (simpl; tauto).
  fold (tx_delete pre k). fold (tx_delete rest k).
  by rewrite !tx_delete_notin.
Qed.

Lemma tx_keys_delete m tx : tx_keys (tx_delete m tx) = filter (λ k, k ≠ tx) (tx_keys m).
Proof.
  unfold tx_delete, tx_keys. induction m as [|[k w] m IH]; [done|].
  rewrite fmap_cons. simpl fst. destruct (decide (k = tx)) as [->|Hne].
  - rewrite !filter_cons_False by (simpl; tauto). done.
  - rewrite !filter_cons_True by (simpl; congruence). rewrite fmap_cons. simpl fst.
    by rewrite IH.
Qed.

Lemma tx_keys_set_present m tx v :
  tx ∈ tx_keys m → tx_keys (tx_set m tx v) = tx_keys m.
Proof.
  induction m as [|[k w] m IH]; simpl.
  - intros H. by apply elem_of_nil in H.
  - destruct (decide (k = tx)) as [->|Hne]; [done|].
    intros [?|Hin]%elem_of_cons; [congruence|]. simpl. f_equal. by apply IH.
Qed.

Lemma tx_keys_set_absent m tx v :
  tx ∉ tx_keys m → tx_keys (tx_set m tx v) = tx_keys m ++ [tx].
Proof.
  induction m as [|[k w] m IH]; simpl; [done|].
  rewrite not_elem_of_cons. intros [Hne Hn].
  rewrite decide_False by congruence. simpl. f_equal. by apply IH.
Qed.

Lemma tx_get_set m tx v k :
  tx_get (tx_set m tx v) k = if decide (tx = k) then Some v else tx_get m k.
Proof.
  induction m as [|[k' w] m IH]; simpl.
  - destruct (decide (tx = k)); done.
  - destruct (decide (k' = tx)) as [->|Hne]; simpl.
    + destruct (decide (tx = k)); done.
    + destruct (decide (k' = k)) as [->|Hne'].
      * by rewrite decide_False by congruence.
      * apply IH.
Qed.

Lemma tx_set_wf m tx v : tx_wf m → tx_wf (tx_set m tx v).
Proof.
  unfold tx_wf. intros H. destruct (decide (tx ∈ tx_keys m)) as [Hin|Hn].
  - by rewrite tx_keys_set_present.
  - rewrite tx_keys_set_absent by done. apply NoDup_app. repeat split; [done| |apply NoDup_singleton].
    intros x Hx Hx'. apply list_elem_of_singleton in Hx'. by subst.
Qed.

(** The shape shared by the two callbacks of the tracker: the callback for
    key [k] replaces the entry of [k] by the entries [g (k, v)] (none, or
    one under the same key) and feeds the entry to [h]. *)
Lemma forEach_entries {S : Type} (cb : string → Tracked * S → Tracked * S)
    (g : string * gset string → Tracked) (h : S → string * gset string → S) :
  (∀ pre rest k v s, k ∉ tx_keys pre → k ∉ tx_keys rest →
     cb k (pre ++ (k, v) :: rest, s) = (pre ++ g (k, v) ++ rest, h s (k, v))) →
  (∀ e, tx_keys (g e) ⊆ [e.1]) →
  ∀ m s, tx_wf m → forEach cb m s = (m ≫= g, foldl h s m).
Proof.
  intros Hcb Hg m s Hwf. unfold forEach.
  change (m, s) with ([] ++ m, s). change (m ≫= g) with ([] ++ (m ≫= g)).
  assert (Hd : ∀ k, k ∈ tx_keys [] → k ∉ tx_keys m) by (intros k Hk; by apply elem_of_nil in Hk).
  revert Hd. generalize ([] : Tracked) as pre. revert s Hwf.
  induction m as [|[k v] rest IH]; intros s Hwf pre Hd; simpl.
  - done.
  - rewrite tx_has_mid. unfold tx_wf in Hwf. simpl in Hwf.
    apply NoDup_cons in Hwf as [Hk Hnd].
    assert (Hkp : k ∉ tx_keys pre).
    { intros Hin. apply (Hd _ Hin). apply list_elem_of_here. }
    rewrite Hcb by done.
    rewrite (assoc_L (++) pre), (assoc_L (++) pre (g (k, v))).
    apply IH; [done|].
    intros k' Hk'. rewrite tx_keys_app in Hk'. apply elem_of_app in Hk' as [Hk'|Hk'].
    + intros Hin. apply (Hd _ Hk'). by apply list_elem_of_further.
    + apply Hg in Hk'. apply list_elem_of_singleton in Hk'. simpl in Hk'. by subst.
Qed.

Lemma foldl_app_calls {A B : Type} (f : A → list B) (l : list A) (tr : list B) :
  foldl (λ s e, s ++ f e) tr l = tr ++ (l ≫= f).
Proof.
  revert tr. induction l as [|a l IH]; intros tr; simpl.
  - by rewrite app_nil_r.
  - rewrite IH. by rewrite (assoc_L (++)).
Qed.

Lemma bind_singleton_fmap {A B : Type} (f : A → B) (l : list A) :
  l ≫= (λ e, [f e]) = f <$> l.
Proof. induction l as [|a l IH]; csimpl; [done|]. by rewrite IH. Qed.

Lemma bind_filter {A : Type} (P : A → Prop) `{∀ x, Decision (P x)} (l : list A) :
  l ≫= (λ e, if decide (P e) then [e] else []) = filter P l.
Proof.
  induction l as [|a l IH]; csimpl; [done|]. rewrite IH.
  destruct (decide (P a)).
  - by rewrite filter_cons_True.
  - by rewrite filter_cons_False.
Qed.

End Registry.

(** ** The handlers in closed form *)

Section Handlers.

Variable api : API.

Implicit Types (m : Tracked) (st : State) (tx b : string).

Lemma body_has tx b :
  bool_decide (tx ∈ (list_to_set (getBody api b) : gset string))
  = bool_decide (tx ∈ getBody api b).
Proof. apply bool_decide_ext. apply elem_of_list_to_set. Qed.

Lemma forEach_onNewBlock b m tr :
  tx_wf m →
  forEach (onNewBlock_cb api b (list_to_set (getBody api b))) m tr
  = (settle_entry api b <$> m, tr ++ (m ≫= settle_calls api b)).
Proof.
  intros Hwf.
  rewrite (forEach_entries _ (λ e, [settle_entry api b e])
                             (λ s e, s ++ settle_calls api b e)); [| | |done].
  - by rewrite bind_singleton_fmap, foldl_app_calls.
  - intros pre rest k v s Hp Hr. unfold onNewBlock_cb, settle_entry, settle_calls.
    rewrite body_has. simpl. destruct (bool_decide (k ∈ getBody api b)); [done|].
    destruct (isTxValid api b k); simpl; [done|].
    by rewrite tx_add_invalid_mid.
  - intros [k v]. unfold settle_entry. simpl.
    destruct (bool_decide _); [done|]. destruct (isTxValid _ _ _); done.
Qed.

Lemma onNewBlock_eq st b parent :
  wf st →
  onNewBlock api st b parent
  = ({| blocks := <[b := parent]> (blocks st);
        trackedTransactions := settle_entry api b <$> trackedTransactions st;
        lastFinalizedBlock := lastFinalizedBlock st |},
     GetBody b :: (trackedTransactions st ≫= settle_calls api b)).
Proof. intros Hwf. unfold onNewBlock. by rewrite forEach_onNewBlock. Qed.

Lemma visit_eq bh cur m :
  tx_wf m →
  visit api bh cur m
  = (survivors api cur m, GetBody cur :: (m ≫= done_calls api bh cur)).
Proof.
  intros Hwf. unfold visit.
  rewrite (forEach_entries _
             (λ e, if decide (e.1 ∉ getBody api cur) then [e] else [])
             (λ s e, s ++ done_calls api bh cur e)); [| | |done].
  - by rewrite bind_filter, foldl_app_calls.
  - intros pre rest k v s Hp Hr. unfold onFinalized_cb, done_calls.
    rewrite body_has. simpl. case_bool_decide as Hb.
    + rewrite decide_False by tauto. simpl. by rewrite tx_delete_mid.
    + rewrite decide_True by done. rewrite tx_get_mid by done.
      destruct (bool_decide (bh ∈ v)); simpl; [done|]. by rewrite app_nil_r.
  - intros [k v]. simpl. destruct (decide _); [done|]. apply list_subseteq_nil.
Qed.

Lemma survivors_wf cur m : tx_wf m → tx_wf (survivors api cur m).
Proof.
  unfold tx_wf, tx_keys, survivors. intros H.
  induction m as [|[k w] m IH]; [done|].
  rewrite fmap_cons in H. apply NoDup_cons in H as [Hk Hnd].
  destruct (decide (k ∉ getBody api cur)).
  - rewrite filter_cons_True by done. rewrite fmap_cons. apply NoDup_cons.
    split; [|by apply IH]. intros Hin. apply Hk.
    apply list_elem_of_fmap in Hin as (e & -> & He).
    apply list_elem_of_filter in He as [_ He].
    by apply (list_elem_of_fmap_2 fst) in He.
  - rewrite filter_cons_False by done. by apply IH.
Qed.

Lemma settle_entry_keys b m : tx_keys (settle_entry api b <$> m) = tx_keys m.
Proof.
  unfold tx_keys. rewrite <-list_fmap_compose. apply list_fmap_ext.
  intros i [k v] _. unfold settle_entry. simpl.
  destruct (bool_decide _); [done|]. destruct (isTxValid _ _ _); done.
Qed.

(** The calls of a visit, whatever the registry holds. *)
Lemma forEach_invariant {S : Type} (P : Tracked * S → Prop)
    (cb : string → Tracked * S → Tracked * S) m (s : S) :
  P (m, s) → (∀ k acc, P acc → P (cb k acc)) → P (forEach cb m s).
Proof.
  intros H0 Hstep. unfold forEach. generalize (tx_keys m). revert H0.
  generalize (m, s). intros acc H0 ks. revert acc H0.
  induction ks as [|k ks IH]; intros acc H0; simpl; [done|].
  apply IH. destruct (tx_has acc.1 k); auto.
Qed.

Lemma visit_calls_shape bh cur m :
  ∃ c, (visit api bh cur m).2 = GetBody cur :: c ∧ Forall is_visit_call c.
Proof.
  unfold visit.
  apply (forEach_invariant
           (λ acc, ∃ c, acc.2 = GetBody cur :: c ∧ Forall is_visit_call c)).
  - exists []. split; [done | constructor].
  - intros k [m' tr] (c & Hc & Hall). simpl in Hc. subst tr.
    unfold onFinalized_cb. destruct (bool_decide _).
    + eexists. split; [simpl; reflexivity|].
      apply Forall_app. split; [done|]. repeat constructor.
    + destruct (tx_get m' k) as [inv|]; [|by exists c].
      destruct (bool_decide _); [|by exists c].
      eexists. split; [simpl; reflexivity|].
      apply Forall_app. split; [done|]. repeat constructor.
Qed.

End Handlers.

(** ** The finalization walk *)

Section Walk.

Variable api : API.

Implicit Types (m : Tracked) (st : State) (blks : gmap string string).

Lemma visit_calls_args (c : list Call) :
  Forall is_visit_call c → getBody_args c = [] ∧ unpin_args c = [].
Proof.
  induction 1 as [|x c Hx _ [IH1 IH2]]; [done|].
  destruct x; try done.
Qed.

Lemma getBody_args_visit cur (c : list Call) :
  Forall is_visit_call c → getBody_args (GetBody cur :: c) = [cur].
Proof.
  intros [H _]%visit_calls_args.
  change (getBody_args (GetBody cur :: c)) with (cur :: getBody_args c).
  by rewrite H.
Qed.

Lemma unpin_args_visit cur (c : list Call) :
  Forall is_visit_call c → unpin_args (GetBody cur :: c) = [].
Proof. by intros [_ H]%visit_calls_args. Qed.

Lemma size_delete_lt blks cur parent fuel :
  blks !! cur = Some parent → size blks < S fuel → size (delete cur blks) < fuel.
Proof.
  intros Hl Hs. rewrite map_size_delete_Some by (by eexists).
  assert (size blks ≠ 0) by (by eapply map_size_ne_0_lookup_2).
  lia.
Qed.

(** A walk that stops at its first block. *)
Lemma walk_stop_spec bh cur blks blks' m m1 c :
  visit api bh cur m = (m1, GetBody cur :: c) →
  Forall is_visit_call c →
  blks' = delete cur blks →
  blks' = foldl (λ b k, delete k b) blks [cur]
  ∧ getBody_args (GetBody cur :: c) = [cur]
  ∧ unpin_args (GetBody cur :: c) = []
  ∧ (tx_wf m → m1 = walk_registry api [cur] m
               ∧ GetBody cur :: c = walk_calls api bh [cur] m).
Proof.
  intros Hv Hall ->. split; [done|].
  split; [by apply getBody_args_visit|].
  split; [by apply unpin_args_visit|].
  intros Hm. rewrite visit_eq in Hv by done. injection Hv as <- Hc.
  split; [done|]. simpl. by rewrite app_nil_r, Hc.
Qed.

(** The loop ends before the counter does, visits the blocks [chain_walk]
    describes, pushes exactly them on [blocksToUnpin], fetches the body of
    each once and in that order, and never unpins. *)
Lemma walk_spec fuel bh lastFin cur blks m u :
  size blks < fuel →
  ∃ vis blks' m' tr,
    walk api fuel bh lastFin cur blks m u = Some (blks', m', u ++ vis, tr)
    ∧ chain_walk lastFin blks cur vis
    ∧ blks' = foldl (λ b k, delete k b) blks vis
    ∧ getBody_args tr = vis
    ∧ unpin_args tr = []
    ∧ (tx_wf m → m' = walk_registry api vis m ∧ tr = walk_calls api bh vis m).
Proof.
  revert cur blks m u. induction fuel as [|fuel IH]; intros cur blks m u Hs; [lia|].
  simpl. destruct (visit api bh cur m) as [m1 tr1] eqn:Hv.
  destruct (visit_calls_shape api bh cur m) as (c & Hc & Hall).
  rewrite Hv in Hc. simpl in Hc. subst tr1.
  destruct (blks !! cur) as [parent|] eqn:Hl.
  - destruct (decide (parent = EmptyString)) as [->|Hne].
    { exists [cur], (delete cur blks), m1, (GetBody cur :: c).
      split; [done|]. split; [by apply cw_no_parent|].
      by eapply walk_stop_spec. }
    destruct (decide (parent = lastFin)) as [->|Hnc].
    { exists [cur], (delete cur blks), m1, (GetBody cur :: c).
      split; [done|]. split; [by apply cw_cursor|].
      by eapply walk_stop_spec. }
    destruct (IH parent (delete cur blks) m1 (u ++ [cur]))
      as (vis & blks' & m' & tr & Hw & Hchain & Hb & Hgb & Hup & Hwf).
    { by eapply size_delete_lt. }
    rewrite Hw. exists (cur :: vis), blks', m', ((GetBody cur :: c) ++ tr).
    split; [by rewrite <-(assoc_L (++))|].
    split; [by eapply cw_step|].
    split; [done|].
    split.
    { unfold getBody_args. rewrite omap_app. fold (getBody_args (GetBody cur :: c)).
      fold (getBody_args tr). by rewrite getBody_args_visit, Hgb. }
    split.
    { unfold unpin_args. rewrite omap_app. fold (unpin_args (GetBody cur :: c)).
      fold (unpin_args tr). by rewrite unpin_args_visit, Hup. }
    intros Hm. rewrite visit_eq in Hv by done. injection Hv as <- Hc.
    destruct (Hwf (survivors_wf api cur m Hm)) as [-> ->].
    split; [done|]. simpl. by rewrite <-Hc.
  - exists [cur], blks, m1, (GetBody cur :: c).
    split; [done|]. split; [by apply cw_absent|].
    eapply walk_stop_spec; [done..|]. by rewrite delete_id.
Qed.

(** [chain_walk] describes one list of blocks. *)
Lemma chain_walk_det cursor blks cur l1 l2 :
  chain_walk cursor blks cur l1 → chain_walk cursor blks cur l2 → l1 = l2.
Proof.
  intros H1. revert l2. induction H1 as [blks cur H|blks cur H|blks cur H|blks cur parent l H Hne Hnc Hw IH];
    intros l2 H2; inversion H2; subst; try congruence.
  f_equal. apply IH. congruence.
Qed.

Lemma chain_walk_head cursor blks cur l :
  chain_walk cursor blks cur l → ∃ tail, l = cur :: tail.
Proof. destruct 1; by eexists. Qed.

(** A visited block other than the first is the parent of the block before
    it and is neither the empty string nor the cursor. *)
Lemma chain_walk_parents cursor blks cur l :
  chain_walk cursor blks cur l →
  ∀ blks0, (∀ k p, blks !! k = Some p → blks0 !! k = Some p) →
  parent_chain blks0 l ∧ Forall (λ b, b ≠ EmptyString ∧ b ≠ cursor) (tail l).
Proof.
  induction 1 as [| | |blks cur parent l H Hne Hnc Hw IH]; intros blks0 Hsub;
    try (split; [done | constructor]).
  destruct (IH blks0) as [Hp Hf].
  { intros k p Hk. apply lookup_delete_Some in Hk as [_ Hk]. by apply Hsub. }
  destruct (chain_walk_head _ _ _ _ Hw) as [tl ->].
  split.
  - simpl. split; [by apply Hsub | exact Hp].
  - simpl. constructor; [done | exact Hf].
Qed.

(** [onFinalized] always returns. *)
Lemma onFinalized_Some st bh :
  ∃ vis blks' m' tr,
    onFinalized api st bh
    = Some ({| blocks := blks'; trackedTransactions := m';
               lastFinalizedBlock := Some bh |}, tr ++ [Unpin vis])
    ∧ chain_walk (default bh (lastFinalizedBlock st)) (blocks st) bh vis
    ∧ blks' = foldl (λ b k, delete k b) (blocks st) vis
    ∧ getBody_args tr = vis
    ∧ unpin_args tr = []
    ∧ (wf st → m' = walk_registry api vis (trackedTransactions st)
               ∧ tr = walk_calls api bh vis (trackedTransactions st)).
Proof.
  unfold onFinalized.
  destruct (walk_spec (S (size (blocks st))) bh (default bh (lastFinalizedBlock st))
              bh (blocks st) (trackedTransactions st) [])
    as (vis & blks' & m' & tr & Hw & H); [lia|].
  rewrite Hw. simpl. by exists vis, blks', m', tr.
Qed.

End Walk.

(** ** Calls per transaction *)

Section PerTransaction.

Variable api : API.

Implicit Types (m : Tracked) (st : State) (tx b : string).

Lemma settle_calls_mention b e : Forall (mentions e.1) (settle_calls api b e).
Proof.
  unfold settle_calls. destruct (bool_decide _); [repeat constructor|].
  destruct (isTxValid _ _ _); repeat constructor.
Qed.

Lemma done_calls_mention bh cur e : Forall (mentions e.1) (done_calls api bh cur e).
Proof.
  unfold done_calls. destruct (bool_decide _); [repeat constructor|].
  destruct (bool_decide _); repeat constructor.
Qed.

Lemma mentions_unique tx tx' c : mentions tx c → mentions tx' c → tx = tx'.
Proof. destruct c; simpl; intros H1 H2; try done; congruence. Qed.

Lemma calls_for_all tx (l : list Call) :
  Forall (mentions tx) l → calls_for tx l = l.
Proof.
  unfold calls_for. induction 1 as [|c l Hc _ IH]; [done|].
  by rewrite filter_cons_True, IH.
Qed.

Lemma calls_for_none tx tx' (l : list Call) :
  tx' ≠ tx → Forall (mentions tx') l → calls_for tx l = [].
Proof.
  unfold calls_for. intros Hne. induction 1 as [|c l Hc _ IH]; [done|].
  rewrite filter_cons_False; [done|].
  intros Hc'. apply Hne. by eapply mentions_unique.
Qed.

(** In a trace made entry by entry, the calls that concern [tx] are the
    calls made for the entry of [tx]. *)
Lemma calls_for_bind (f : string * gset string → list Call) m tx :
  (∀ e, Forall (mentions e.1) (f e)) → tx_wf m →
  calls_for tx (m ≫= f)
  = match tx_get m tx with Some v => f (tx, v) | None => [] end.
Proof.
  intros Hf. unfold tx_wf, tx_keys. induction m as [|[k v] m IH]; intros Hwf; [done|].
  rewrite fmap_cons in Hwf. apply NoDup_cons in Hwf as [Hk Hnd]. simpl in Hk.
  rewrite bind_cons. unfold calls_for in *. rewrite filter_app. simpl tx_get.
  destruct (decide (k = tx)) as [->|Hne].
  - fold (calls_for tx (f (tx, v))). rewrite calls_for_all by apply (Hf (tx, v)).
    rewrite IH by done. apply tx_get_None in Hk. rewrite Hk. by rewrite app_nil_r.
  - fold (calls_for tx (f (k, v))).
    rewrite (calls_for_none tx k) by (done || apply (Hf (k, v))).
    by rewrite IH.
Qed.

Lemma tx_get_fmap (g : string * gset string → string * gset string) m tx :
  (∀ e, (g e).1 = e.1) →
  tx_get (g <$> m) tx = (λ v, (g (tx, v)).2) <$> tx_get m tx.
Proof.
  intros Hg. induction m as [|[k v] m IH]; [done|].
  rewrite fmap_cons. specialize (Hg (k, v)) as Hkv.
  destruct (g (k, v)) as [k' v'] eqn:E. simpl in Hkv. subst k'. simpl.
  destruct (decide (k = tx)) as [->|Hne]; [|exact IH].
  simpl. by rewrite E.
Qed.

Lemma settle_entry_fst b e : (settle_entry api b e).1 = e.1.
Proof.
  unfold settle_entry. destruct (bool_decide _); [done|].
  destruct (isTxValid _ _ _); done.
Qed.

End PerTransaction.

(** ** Counting sink calls *)

Section Counting.

Lemma omap_cons_call {B : Type} (f : Call → option B) (c : Call) (tr : list Call) :
  omap f (c :: tr) = match f c with Some y => y :: omap f tr | None => omap f tr end.
Proof. done. Qed.

Lemma settled_count_calls_for tx (tr : list Call) :
  count_occ_of tx (settled_txs tr) = length (settled_txs (calls_for tx tr)).
Proof.
  unfold count_occ_of, settled_txs, calls_for.
  induction tr as [|c tr IH]; [done|].
  rewrite omap_cons_call.
  destruct (decide (mentions tx c)) as [Hm|Hm].
  - rewrite filter_cons_True by done. rewrite omap_cons_call.
    destruct c; simpl in Hm; try done; subst; try exact IH.
    rewrite filter_cons_True by done. simpl. by rewrite IH.
  - rewrite (filter_cons_False (mentions tx)) by done.
    destruct c; simpl in Hm; try exact IH.
    by rewrite filter_cons_False.
Qed.

Lemma done_count_calls_for tx (tr : list Call) :
  count_occ_of tx (done_txs tr) = length (done_txs (calls_for tx tr)).
Proof.
  unfold count_occ_of, done_txs, calls_for.
  induction tr as [|c tr IH]; [done|].
  rewrite omap_cons_call.
  destruct (decide (mentions tx c)) as [Hm|Hm].
  - rewrite filter_cons_True by done. rewrite omap_cons_call.
    destruct c; simpl in Hm; try done; subst; try exact IH.
    rewrite filter_cons_True by done. simpl. by rewrite IH.
  - rewrite (filter_cons_False (mentions tx)) by done.
    destruct c; simpl in Hm; try exact IH.
    by rewrite filter_cons_False.
Qed.

End Counting.

(** ** New blocks and new transactions *)

Section NewBlock.

Variable api : API.

Implicit Types (m : Tracked) (st : State) (tx b : string).

(** C8. On a newBlock event every registered transaction gets exactly one
    of three outcomes. In the block's body: one [isTxSuccessful] query and
    [settled(tx, blockHash, valid, successful)] with its answer, the
    invalidity set untouched. Not in the body and [isTxValid] false: one
    validity query and [settled(tx, blockHash, invalid)], and [blockHash]
    joins the invalidity set of the transaction. Otherwise: the validity
    query alone, no sink call. No call is made for a transaction that is
    not registered, so no transaction is settled twice by one event. *)
Theorem C8_newBlock_outcomes st b parent :
  wf st →
  ∀ tx,
    let st' := (onNewBlock api st b parent).1 in
    let tr := (onNewBlock api st b parent).2 in
    (∀ inv, tx_get (trackedTransactions st) tx = Some inv →
       (tx ∈ getBody api b →
          calls_for tx tr
          = [IsTxSuccessful b tx;
             OnTxSettled tx (Valid b (isTxSuccessful api b tx))]
          ∧ tx_get (trackedTransactions st') tx = Some inv)
       ∧ (tx ∉ getBody api b → isTxValid api b tx = false →
          calls_for tx tr = [IsTxValid b tx; OnTxSettled tx (Invalid b)]
          ∧ tx_get (trackedTransactions st') tx = Some (inv ∪ {[b]}))
       ∧ (tx ∉ getBody api b → isTxValid api b tx = true →
          calls_for tx tr = [IsTxValid b tx]
          ∧ tx_get (trackedTransactions st') tx = Some inv))
    ∧ (tx_get (trackedTransactions st) tx = None → calls_for tx tr = [])
    ∧ (count_occ_of tx (settled_txs tr) ≤ 1)%nat.
Proof.
  intros Hwf tx. cbv zeta. rewrite onNewBlock_eq by done.
  cbn [fst snd trackedTransactions].
  assert (Hcalls : calls_for tx (GetBody b :: (trackedTransactions st ≫= settle_calls api b))
          = match tx_get (trackedTransactions st) tx with
            | Some v => settle_calls api b (tx, v)
            | None => []
            end).
  { unfold calls_for. rewrite filter_cons_False by (simpl; tauto).
    apply calls_for_bind; [apply settle_calls_mention | done]. }
  rewrite settled_count_calls_for, Hcalls.
  rewrite (tx_get_fmap _ _ _ (settle_entry_fst api b)).
  destruct (tx_get (trackedTransactions st) tx) as [v|] eqn:Hget; simpl.
  - unfold settle_calls, settle_entry. simpl.
    split; [|split; [done|]].
    + intros inv [= <-]. split; [|split].
      * intros Hin. by rewrite !bool_decide_eq_true_2 by done.
      * intros Hn Hv. rewrite !bool_decide_eq_false_2 by done. by rewrite Hv.
      * intros Hn Hv. rewrite !bool_decide_eq_false_2 by done. by rewrite Hv.
    + unfold settled_txs.
      destruct (bool_decide (tx ∈ getBody api b)); [simpl; lia|].
      destruct (isTxValid api b tx); simpl; lia.
  - split; [done|]. split; [done|]. simpl. lia.
Qed.

(** C10. A newTransaction event for a transaction that is already
    registered empties its invalidity set and leaves the iteration order of
    the registry, and every other entry, as they were. *)
Theorem C10_reregistration_resets st tx inv :
  tx_get (trackedTransactions st) tx = Some inv →
  let st' := (onNewTx st tx).1 in
  tx_get (trackedTransactions st') tx = Some ∅
  ∧ tx_keys (trackedTransactions st') = tx_keys (trackedTransactions st)
  ∧ (∀ k, k ≠ tx →
       tx_get (trackedTransactions st') k = tx_get (trackedTransactions st) k)
  ∧ (onNewTx st tx).2 = []
  ∧ blocks st' = blocks st
  ∧ lastFinalizedBlock st' = lastFinalizedBlock st.
Proof.
  intros Hget. simpl. repeat split.
  - rewrite tx_get_set. by rewrite decide_True.
  - apply tx_keys_set_present. by eapply tx_get_Some_key.
  - intros k Hk. rewrite tx_get_set. by rewrite decide_False.
Qed.

End NewBlock.

Lemma st_two_wf : wf st_two.
Proof. unfold wf, tx_wf. by_compute. Defined.

(** C8 at work: B1 holds T1 and not T2, which stays valid. *)
Lemma C8_newBlock_outcomes_witness :
  wf st_two
  ∧ calls_for "T1" (onNewBlock chain_api st_two "B1" "B0").2
    = [IsTxSuccessful "B1" "T1"; OnTxSettled "T1" (Valid "B1" true)]
  ∧ calls_for "T2" (onNewBlock chain_api st_two "B1" "B0").2
    = [IsTxValid "B1" "T2"].
Proof.
  split; [exact st_two_wf|].
  split.
  - destruct (C8_newBlock_outcomes chain_api st_two "B1" "B0" st_two_wf "T1")
      as [H _].
    destruct (H ∅ eq_refl) as [H1 _].
    apply H1. by_compute.
  - destruct (C8_newBlock_outcomes chain_api st_two "B1" "B0" st_two_wf "T2")
      as [H _].
    destruct (H ∅ eq_refl) as (_ & _ & H3).
    apply H3; [by_compute | reflexivity].
Defined.

(** C10 at work: T, recorded invalid in B2, is registered again. *)
Lemma C10_reregistration_resets_witness :
  tx_get (trackedTransactions st_invalid) "T" = Some {["B2"]}
  ∧ tx_get (trackedTransactions (onNewTx st_invalid "T").1) "T" = Some ∅
  ∧ tx_keys (trackedTransactions (onNewTx st_invalid "T").1) = ["T0"; "T"].
Proof.
  split; [reflexivity|].
  destruct (C10_reregistration_resets st_invalid "T" {["B2"]} eq_refl)
    as (H1 & H2 & _).
  split; [exact H1 | exact H2].
Defined.

(** ** Finalization: the walk and the unpin call *)

Section Finalized.

Variable api : API.

Implicit Types (m : Tracked) (st : State) (tx b : string).

(** C4. Every finalized event ends with one [unpin] call, the only one of
    the event, and its argument is the list of the blocks the walk has
    visited (those whose body it fetched), in the order of the visits: the
    finalized block, then each time the parent of the block before, as far
    as [chain_walk] goes, the previous cursor never among these ancestors. *)
Theorem C4_unpin_once_with_visited st bh :
  ∃ st' tr vis ancestors,
    onFinalized api st bh = Some (st', tr ++ [Unpin vis])
    ∧ unpin_args (tr ++ [Unpin vis]) = [vis]
    ∧ getBody_args (tr ++ [Unpin vis]) = vis
    ∧ vis = bh :: ancestors
    ∧ chain_walk (default bh (lastFinalizedBlock st)) (blocks st) bh vis
    ∧ parent_chain (blocks st) vis
    ∧ (∀ c, lastFinalizedBlock st = Some c → c ∉ ancestors)
    ∧ lastFinalizedBlock st' = Some bh.
Proof.
  destruct (onFinalized_Some api st bh)
    as (vis & blks' & m' & tr & Hfin & Hchain & _ & Hgb & Hup & _).
  destruct (chain_walk_head _ _ _ _ Hchain) as [ancestors Hvis].
  destruct (chain_walk_parents _ _ _ _ Hchain (blocks st)) as [Hpar Hall]; [done|].
  eexists _, tr, vis, ancestors. split; [exact Hfin|].
  split; [unfold unpin_args in *; rewrite omap_app; by rewrite Hup|].
  split; [unfold getBody_args in *; rewrite omap_app, Hgb; simpl; by rewrite app_nil_r|].
  split; [done|]. split; [done|]. split; [done|]. split; [|done].
  intros c Hc Hin. rewrite Hvis in Hall. simpl in Hall.
  rewrite Forall_forall in Hall. destruct (Hall c Hin) as [_ Hne].
  rewrite Hc in Hne. by apply Hne.
Qed.

(** C5, as amended. The walk starts at the finalized block and goes from
    child to parent; it stops after a block that is not in the index, or
    whose parent is the empty string, or whose parent is the cursor (the
    finalized block itself when nothing was finalized before). With the
    chain B1 <- B2 <- B3 in the index, neither B1 nor B2 the cursor, and the
    parent of B1 either empty or the cursor, finalized(B3) visits B3, B2, B1
    in that order and unpins [B3; B2; B1] in one call. *)
Theorem C5_walk_order_and_stop :
  (∀ st bh, ∃ st' tr vis,
      onFinalized api st bh = Some (st', tr ++ [Unpin vis])
      ∧ getBody_args tr = vis
      ∧ unpin_args tr = []
      ∧ chain_walk (default bh (lastFinalizedBlock st)) (blocks st) bh vis)
  ∧ (∀ st B1 B2 B3 p,
      blocks st !! B3 = Some B2 → blocks st !! B2 = Some B1 →
      blocks st !! B1 = Some p →
      B1 ≠ B2 → B1 ≠ B3 → B2 ≠ B3 → B1 ≠ EmptyString → B2 ≠ EmptyString →
      lastFinalizedBlock st ≠ Some B1 → lastFinalizedBlock st ≠ Some B2 →
      p = EmptyString ∨ lastFinalizedBlock st = Some p →
      ∃ st' tr,
        onFinalized api st B3 = Some (st', tr ++ [Unpin [B3; B2; B1]])
        ∧ getBody_args tr = [B3; B2; B1]
        ∧ unpin_args tr = []).
Proof.
  split.
  - intros st bh.
    destruct (onFinalized_Some api st bh)
      as (vis & blks' & m' & tr & Hfin & Hchain & _ & Hgb & Hup & _).
    eexists _, tr, vis.
    split; [exact Hfin|]. split; [exact Hgb|]. split; [exact Hup | exact Hchain].
  - intros st B1 B2 B3 p H3 H2 H1 N12 N13 N23 E1 E2 L1 L2 Hp.
    destruct (onFinalized_Some api st B3)
      as (vis & blks' & m' & tr & Hfin & Hchain & _ & Hgb & Hup & _).
    assert (Hvis : vis = [B3; B2; B1]).
    { eapply chain_walk_det; [exact Hchain|].
      set (lastFin := default B3 (lastFinalizedBlock st)).
      assert (B2 ≠ lastFin ∧ B1 ≠ lastFin) as [F2 F1].
      { unfold lastFin. destruct (lastFinalizedBlock st) as [c|]; simpl; split; congruence. }
      apply (cw_step _ _ _ B2); [done..|].
      apply (cw_step _ _ _ B1); [by rewrite lookup_delete_ne|done..|].
      assert (Hl : delete B2 (delete B3 (blocks st)) !! B1 = Some p).
      { by rewrite !lookup_delete_ne. }
      destruct Hp as [->|Hp]; [by apply cw_no_parent|].
      destruct (decide (p = EmptyString)) as [->|]; [by apply cw_no_parent|].
      replace lastFin with p; [by apply cw_cursor|].
      unfold lastFin. by rewrite Hp. }
    rewrite Hvis in Hfin, Hgb. eexists _, tr.
    split; [exact Hfin|]. split; [exact Hgb | exact Hup].
Qed.

End Finalized.

(** C5, as stated, fails when nothing was finalized before and the parent
    of B1 is a block the tracker never saw: the walk goes on to that
    parent, fetches its body and unpins it with the others. *)
Lemma C5_counterexample :
  run chain_api init
      [NewBlock "B1" "B0"; NewBlock "B2" "B1"; NewBlock "B3" "B2"]
  = Some (st_chain_fresh, [GetBody "B1"; GetBody "B2"; GetBody "B3"])
  ∧ onFinalized chain_api st_chain_fresh "B3"
    = Some ({| blocks := ∅; trackedTransactions := [];
               lastFinalizedBlock := Some "B3" |},
            [GetBody "B3"; GetBody "B2"; GetBody "B1"; GetBody "B0";
             Unpin ["B3"; "B2"; "B1"; "B0"]])
  ∧ ¬ (∃ st' tr, onFinalized chain_api st_chain_fresh "B3"
                 = Some (st', tr ++ [Unpin ["B3"; "B2"; "B1"]])).
Proof.
  assert (H : onFinalized chain_api st_chain_fresh "B3"
    = Some ({| blocks := ∅; trackedTransactions := [];
               lastFinalizedBlock := Some "B3" |},
            [GetBody "B3"; GetBody "B2"; GetBody "B1"; GetBody "B0";
             Unpin ["B3"; "B2"; "B1"; "B0"]])) by (vm_compute; reflexivity).
  split; [vm_compute; reflexivity|]. split; [exact H|].
  intros (st' & tr & Htr). rewrite H in Htr. injection Htr as _ Htr.
  apply (f_equal (λ l, last l)) in Htr. rewrite last_snoc in Htr.
  simpl in Htr. discriminate.
Qed.

(** C5 at work: the chain B1 <- B2 <- B3 pinned on top of the cursor B0. *)
Lemma C5_walk_order_and_stop_witness :
  ∃ st' tr,
    onFinalized chain_api st_chain "B3"
    = Some (st', tr ++ [Unpin ["B3"; "B2"; "B1"]])
    ∧ getBody_args tr = ["B3"; "B2"; "B1"]
    ∧ unpin_args tr = [].
Proof.
  apply (proj2 (C5_walk_order_and_stop chain_api) st_chain "B1" "B2" "B3" "B0");
    try reflexivity; try discriminate.
  right. reflexivity.
Defined.

(** ** Finalization: the done calls *)

Section Done.

Variable api : API.

Implicit Types (m : Tracked) (st : State) (tx b cur bh : string).

Lemma tx_get_survivors cur m tx :
  tx_get (survivors api cur m) tx
  = if decide (tx ∈ getBody api cur) then None else tx_get m tx.
Proof.
  unfold survivors. induction m as [|[k v] m IH].
  - by destruct (decide _).
  - destruct (decide (k ∈ getBody api cur)) as [Hk|Hk].
    + rewrite filter_cons_False by (simpl; tauto). rewrite IH. simpl.
      destruct (decide (tx ∈ getBody api cur)) as [|Hn]; [done|].
      rewrite decide_False; [done|]. by intros ->.
    + rewrite filter_cons_True by done. simpl.
      destruct (decide (k = tx)) as [->|Hne]; [by rewrite decide_False|].
      exact IH.
Qed.

Lemma tx_get_walk_registry_None vis m tx :
  tx_get m tx = None → tx_get (walk_registry api vis m) tx = None.
Proof.
  unfold walk_registry. revert m. induction vis as [|c vis IH]; intros m H; [done|].
  simpl. apply IH. rewrite tx_get_survivors. by destruct (decide _).
Qed.

Lemma elem_of_done_calls_invalid bh cur0 e tx cur :
  OnTxDone tx (Invalid cur) ∈ done_calls api bh cur0 e
  ↔ (e.1 = tx ∧ cur = cur0 ∧ (tx ∉ getBody api cur0) ∧ bh ∈ e.2).
Proof.
  unfold done_calls. case_bool_decide as Hb.
  - rewrite !elem_of_cons, elem_of_nil. split.
    + intros [?|[?|[]]]; discriminate.
    + intros (<- & _ & Hn & _). done.
  - case_bool_decide as Hi.
    + rewrite list_elem_of_singleton. split.
      * intros [= -> ->]. done.
      * intros (-> & -> & _). done.
    + rewrite elem_of_nil. split; [done|]. intros (_ & _ & _ & ?). done.
Qed.

(** The invalid done calls of a walk. *)
Lemma walk_calls_invalid bh vis m tx cur :
  tx_wf m →
  OnTxDone tx (Invalid cur) ∈ walk_calls api bh vis m
  ↔ (∃ pre post inv,
      vis = pre ++ cur :: post
      ∧ tx_get m tx = Some inv
      ∧ (∀ b, b ∈ pre → tx ∉ getBody api b)
      ∧ (tx ∉ getBody api cur)
      ∧ bh ∈ inv).
Proof.
  revert m. induction vis as [|c vis IH]; intros m Hwf.
  - simpl. rewrite elem_of_nil. split; [done|].
    intros (pre & post & inv & H & _). by destruct pre.
  - simpl. rewrite elem_of_cons, elem_of_app, list_elem_of_bind.
    rewrite (IH _ (survivors_wf api c m Hwf)). split.
    + intros [?|[([k v] & Hin & He)|(pre & post & inv & -> & Hget & Hpre & Hcur & Hbh)]];
        [discriminate| |].
      * apply elem_of_done_calls_invalid in Hin as (Hk & -> & Hn & Hbh).
        simpl in Hk, Hbh. subst k.
        exists [], vis, v. repeat split; try done.
        -- by apply tx_get_of_elem.
        -- intros b Hb. by apply elem_of_nil in Hb.
      * rewrite tx_get_survivors in Hget.
        destruct (decide (tx ∈ getBody api c)) as [|Hn]; [done|].
        exists (c :: pre), post, inv. repeat split; try done.
        intros b [->|Hb]%elem_of_cons; [done | by apply Hpre].
    + intros (pre & post & inv & Hvis & Hget & Hpre & Hcur & Hbh).
      right. destruct pre as [|c' pre]; simpl in Hvis; injection Hvis as -> ->.
      * left. exists (tx, inv). split; [|by apply tx_get_elem_of].
        by apply elem_of_done_calls_invalid.
      * right. exists pre, post, inv. repeat split; try done.
        -- rewrite tx_get_survivors. rewrite decide_False; [done|].
           apply Hpre. apply list_elem_of_here.
        -- intros b Hb. apply Hpre. by apply list_elem_of_further.
Qed.

(** What [onFinalized] returns on a well-formed state. *)
Lemma onFinalized_wf_inv st bh st' tr :
  wf st → onFinalized api st bh = Some (st', tr) →
  ∃ vis, tr = walk_calls api bh vis (trackedTransactions st) ++ [Unpin vis]
         ∧ getBody_args tr = vis
         ∧ trackedTransactions st'
           = walk_registry api vis (trackedTransactions st).
Proof.
  intros Hwf Hfin.
  destruct (onFinalized_Some api st bh)
    as (vis & blks' & m' & tr0 & Hfin' & _ & _ & Hgb & _ & Hden).
  rewrite Hfin in Hfin'. injection Hfin' as -> ->.
  destruct (Hden Hwf) as [-> ->]. exists vis. split; [done|]. split; [|done].
  unfold getBody_args in *. rewrite omap_app, Hgb. simpl. by rewrite app_nil_r.
Qed.

(** C7. In a finalization walk, [done(tx, current, invalid)] is emitted
    exactly when [current] is visited while [tx] is still registered (it was
    registered when the event arrived and no block visited before
    [current] holds it), [tx] is not in the body of [current], and the
    invalidity set of [tx] holds the block carried by the event. Whether the
    set holds [current] or any other block plays no part. *)
Theorem C7_invalid_done_scope st bh st' tr :
  wf st → onFinalized api st bh = Some (st', tr) →
  ∀ tx cur,
    OnTxDone tx (Invalid cur) ∈ tr
    ↔ (∃ pre post inv,
        getBody_args tr = pre ++ cur :: post
        ∧ tx_get (trackedTransactions st) tx = Some inv
        ∧ (∀ b, b ∈ pre → tx ∉ getBody api b)
        ∧ (tx ∉ getBody api cur)
        ∧ bh ∈ inv).
Proof.
  intros Hwf Hfin tx cur.
  destruct (onFinalized_wf_inv st bh st' tr Hwf Hfin) as (vis & Htr & Hgb & _).
  rewrite Hgb. rewrite <-(walk_calls_invalid bh vis _ tx cur Hwf).
  rewrite Htr, elem_of_app, list_elem_of_singleton.
  split; [intros [?|?]; [done | discriminate] | by left].
Qed.

End Done.

Section DoneValid.

Variable api : API.

Implicit Types (m : Tracked) (st : State) (tx b cur bh : string).

Lemma tx_get_split m tx inv :
  tx_get m tx = Some inv →
  ∃ m1 m2, m = m1 ++ (tx, inv) :: m2 ∧ tx ∉ tx_keys m1.
Proof.
  induction m as [|[k v] m IH]; simpl; [done|].
  destruct (decide (k = tx)) as [->|Hne].
  - intros [= ->]. exists [], m. split; [done | apply not_elem_of_nil].
  - intros (m1 & m2 & -> & Hn)%IH. exists ((k, v) :: m1), m2.
    split; [done|]. unfold tx_keys. rewrite fmap_cons. apply not_elem_of_cons.
    split; [simpl; congruence | exact Hn].
Qed.

Lemma bind_no_mention (f : string * gset string → list Call) m tx :
  (∀ e, Forall (mentions e.1) (f e)) → tx_get m tx = None →
  Forall (λ c, ¬ mentions tx c) (m ≫= f).
Proof.
  intros Hf Hget. apply Forall_forall. intros c Hc Hm.
  apply list_elem_of_bind in Hc as ([k v] & Hc & He).
  specialize (Hf (k, v)). rewrite Forall_forall in Hf. specialize (Hf c Hc).
  simpl in Hf. assert (k = tx) as -> by (by eapply mentions_unique).
  apply tx_get_None in Hget. apply Hget.
  by apply (list_elem_of_fmap_2 fst) in He.
Qed.

Lemma walk_calls_no_mention bh vis m tx :
  tx_get m tx = None → Forall (λ c, ¬ mentions tx c) (walk_calls api bh vis m).
Proof.
  revert m. induction vis as [|c vis IH]; intros m Hget; [constructor|].
  simpl. constructor; [simpl; tauto|]. apply Forall_app. split.
  - apply bind_no_mention; [apply done_calls_mention | done].
  - apply IH. rewrite tx_get_survivors. by destruct (decide _).
Qed.

Lemma walk_calls_kinds bh vis m : Forall (is_walk_call api) (walk_calls api bh vis m).
Proof.
  revert m. induction vis as [|c vis IH]; intros m; [constructor|].
  simpl. constructor; [done|]. apply Forall_app. split; [|apply IH].
  apply Forall_forall. intros x Hx.
  apply list_elem_of_bind in Hx as ([k v] & Hx & _).
  unfold done_calls in Hx. simpl in Hx. case_bool_decide as Hb.
  - apply elem_of_cons in Hx as [->|Hx]; [done|].
    apply list_elem_of_singleton in Hx as ->. done.
  - case_bool_decide; [|by apply elem_of_nil in Hx].
    apply list_elem_of_singleton in Hx as ->. done.
Qed.

(** The valid done call of a walk, and what follows it. *)
Lemma walk_calls_valid bh m tx inv pre cur post :
  tx_wf m → tx_get m tx = Some inv →
  (∀ b, b ∈ pre → tx ∉ getBody api b) → tx ∈ getBody api cur →
  ∃ tr1 tr2,
    walk_calls api bh (pre ++ cur :: post) m
    = tr1 ++ [IsTxSuccessful cur tx;
              OnTxDone tx (Valid cur (isTxSuccessful api cur tx))] ++ tr2
    ∧ Forall (λ c, ¬ mentions tx c) tr2
    ∧ tx_get (walk_registry api (pre ++ cur :: post) m) tx = None.
Proof.
  revert m. induction pre as [|c pre IH]; intros m Hwf Hget Hpre Hcur.
  - destruct (tx_get_split m tx inv Hget) as (m1 & m2 & -> & Hn1).
    assert (Hn2 : tx_get m2 tx = None).
    { apply tx_get_None. unfold tx_wf in Hwf. rewrite tx_keys_app in Hwf.
      apply NoDup_app in Hwf as (_ & _ & Hwf). unfold tx_keys in Hwf.
      rewrite fmap_cons in Hwf. by apply NoDup_cons in Hwf as [? _]. }
    assert (Hs : tx_get (survivors api cur (m1 ++ (tx, inv) :: m2)) tx = None).
    { rewrite tx_get_survivors. by rewrite decide_True. }
    exists (GetBody cur :: (m1 ≫= done_calls api bh cur)),
           ((m2 ≫= done_calls api bh cur)
            ++ walk_calls api bh post (survivors api cur (m1 ++ (tx, inv) :: m2))).
    split; [|split].
    + simpl. rewrite bind_app, bind_cons. unfold done_calls at 2. simpl.
      rewrite bool_decide_eq_true_2 by done.
      by rewrite <-!(assoc_L (++)).
    + apply Forall_app. split.
      * apply bind_no_mention; [apply done_calls_mention | done].
      * by apply walk_calls_no_mention.
    + simpl. by apply tx_get_walk_registry_None.
  - destruct (IH (survivors api c m)) as (tr1 & tr2 & Heq & Hall & Hreg).
    + by apply survivors_wf.
    + rewrite tx_get_survivors. rewrite decide_False; [done|].
      apply Hpre. apply list_elem_of_here.
    + intros b Hb. apply Hpre. by apply list_elem_of_further.
    + done.
    + exists ((GetBody c :: (m ≫= done_calls api bh c)) ++ tr1), tr2.
      split; [|split; [done|exact Hreg]].
      simpl. rewrite Heq. by rewrite <-!(assoc_L (++)).
Qed.

(** C9. When the walk of a finalized event visits a block that holds a
    transaction still registered at that point (registered when the event
    arrived, and in no block visited earlier in the walk), the walk queries
    [isTxSuccessful(current, tx)] and emits [done(tx, current, valid,
    successful)] with its answer; the transaction is deleted right then: no
    later call of the event concerns it, and it is not in the registry the
    event leaves. *)
Theorem C9_valid_done_and_removal st bh st' tr :
  wf st → onFinalized api st bh = Some (st', tr) →
  ∀ tx inv pre cur post,
    getBody_args tr = pre ++ cur :: post →
    tx_get (trackedTransactions st) tx = Some inv →
    (∀ b, b ∈ pre → tx ∉ getBody api b) →
    tx ∈ getBody api cur →
    ∃ tr1 tr2,
      tr = tr1 ++ [IsTxSuccessful cur tx;
                   OnTxDone tx (Valid cur (isTxSuccessful api cur tx))] ++ tr2
      ∧ Forall (λ c, ¬ mentions tx c) tr2
      ∧ tx_get (trackedTransactions st') tx = None.
Proof.
  intros Hwf Hfin tx inv pre cur post Hvis Hget Hpre Hcur.
  destruct (onFinalized_wf_inv api st bh st' tr Hwf Hfin) as (vis & Htr & Hgb & Hreg).
  rewrite Hgb in Hvis. subst vis.
  destruct (walk_calls_valid bh _ tx inv pre cur post Hwf Hget Hpre Hcur)
    as (tr1 & tr2 & Heq & Hall & Hnone).
  exists tr1, (tr2 ++ [Unpin (pre ++ cur :: post)]).
  split; [|split].
  - rewrite Htr, Heq. by rewrite <-!(assoc_L (++)).
  - apply Forall_app. split; [done|]. constructor; [simpl; tauto | constructor].
  - by rewrite Hreg.
Qed.

End DoneValid.

Lemma st_invalid_wf : wf st_invalid.
Proof. unfold wf, tx_wf. by_compute. Defined.

Lemma st_chain_wf : wf st_chain.
Proof. unfold wf, tx_wf. by_compute. Defined.

Lemma st_invalid_finalized :
  onFinalized invalid_api st_invalid "B2" = Some (st_invalid_done, tr_invalid_done).
Proof. vm_compute. reflexivity. Defined.

Lemma st_chain_finalized :
  onFinalized chain_api st_chain "B3" = Some (st_chain_done, tr_chain_done).
Proof. vm_compute. reflexivity. Defined.

(** C7 at work: T is recorded invalid in B2 only; finalized(B2) walks B2
    and B1, and the done call at B1 is accounted for by B2, the block of
    the event, being in the set. *)
Lemma C7_invalid_done_scope_witness :
  wf st_invalid
  ∧ onFinalized invalid_api st_invalid "B2" = Some (st_invalid_done, tr_invalid_done)
  ∧ (OnTxDone "T" (Invalid "B1") ∈ tr_invalid_done
     ↔ (∃ pre post inv,
         getBody_args tr_invalid_done = pre ++ "B1" :: post
         ∧ tx_get (trackedTransactions st_invalid) "T" = Some inv
         ∧ (∀ b, b ∈ pre → "T" ∉ getBody invalid_api b)
         ∧ ("T" ∉ getBody invalid_api "B1")
         ∧ "B2" ∈ inv)).
Proof.
  split; [exact st_invalid_wf|]. split; [exact st_invalid_finalized|].
  exact (C7_invalid_done_scope invalid_api st_invalid "B2" _ _
           st_invalid_wf st_invalid_finalized "T" "B1").
Defined.

(** C9 at work: finalized(B3) reaches B1, which holds T1, after B3 and B2. *)
Lemma C9_valid_done_and_removal_witness :
  wf st_chain
  ∧ onFinalized chain_api st_chain "B3" = Some (st_chain_done, tr_chain_done)
  ∧ ∃ tr1 tr2,
      tr_chain_done
      = tr1 ++ [IsTxSuccessful "B1" "T1";
                OnTxDone "T1" (Valid "B1" (isTxSuccessful chain_api "B1" "T1"))]
            ++ tr2
      ∧ Forall (λ c, ¬ mentions "T1" c) tr2
      ∧ tx_get (trackedTransactions st_chain_done) "T1" = None.
Proof.
  split; [exact st_chain_wf|]. split; [exact st_chain_finalized|].
  apply (C9_valid_done_and_removal chain_api st_chain "B3" _ _
           st_chain_wf st_chain_finalized "T1" ∅ ["B3"; "B2"] "B1" []).
  - reflexivity.
  - reflexivity.
  - apply (proj1 (Forall_forall (λ b, "T1" ∉ getBody chain_api b) ["B3"; "B2"])).
    by_compute.
  - by_compute.
Defined.

(** ** A transaction settled invalid in a block that is then finalized *)

Section InvalidThenFinalized.

Variable api : API.

Implicit Types (m : Tracked) (st : State) (tx b cur bh : string).


Lemma onNewBlock_tx_get st b parent tx :
  wf st →
  tx_get (trackedTransactions (onNewBlock api st b parent).1) tx
  = (λ v, (settle_entry api b (tx, v)).2) <$> tx_get (trackedTransactions st) tx.
Proof.
  intros Hwf. rewrite onNewBlock_eq by done. cbn [fst trackedTransactions].
  apply tx_get_fmap, settle_entry_fst.
Qed.

Lemma onNewBlock_wf st b parent : wf st → wf (onNewBlock api st b parent).1.
Proof.
  intros Hwf. rewrite onNewBlock_eq by done. unfold wf, tx_wf. cbn [fst trackedTransactions].
  by rewrite settle_entry_keys.
Qed.


End InvalidThenFinalized.



(** ** Reachable states *)

Section Reachable.

Variable api : API.

Implicit Types (m : Tracked) (st : State) (tx b cur bh : string).

Lemma walk_registry_wf vis m : tx_wf m → tx_wf (walk_registry api vis m).
Proof.
  unfold walk_registry. revert m. induction vis as [|c vis IH]; intros m H; [done|].
  simpl. apply IH. by apply survivors_wf.
Qed.

(** Every handler returns; the registry never holds a key twice. *)
Lemma handle_total st e : is_Some (handle api st e).
Proof.
  destruct e as [b p|v|b]; simpl; [by eexists..|].
  destruct (onFinalized_Some api st b) as (vis & blks' & m' & tr & H & _).
  rewrite H. by eexists.
Qed.

Lemma handle_wf st e st' tr : wf st → handle api st e = Some (st', tr) → wf st'.
Proof.
  intros Hwf. destruct e as [b p|v|b]; simpl.
  - intros [= H]. replace st' with (onNewBlock api st b p).1 by (by rewrite H).
    by apply onNewBlock_wf.
  - intros [= <- _]. unfold wf. simpl. by apply tx_set_wf.
  - intros Hfin. destruct (onFinalized_wf_inv api st b st' tr Hwf Hfin) as (vis & _ & _ & Hreg).
    unfold wf. rewrite Hreg. by apply walk_registry_wf.
Qed.

Lemma run_total st events : is_Some (run api st events).
Proof.
  revert st. induction events as [|e events IH]; intros st; simpl; [by eexists|].
  destruct (handle_total st e) as [[st1 tr1] ->].
  destruct (IH st1) as [[st2 tr2] ->]. by eexists.
Qed.

Lemma run_wf st events st' tr : wf st → run api st events = Some (st', tr) → wf st'.
Proof.
  revert st tr. induction events as [|e events IH]; intros st tr Hwf; simpl.
  - by intros [= <- _].
  - destruct (handle api st e) as [[st1 tr1]|] eqn:He; [|done].
    destruct (run api st1 events) as [[st2 tr2]|] eqn:Hr; [|done].
    intros [= <- _]. eapply IH; [|exact Hr]. by eapply handle_wf.
Qed.

Lemma init_wf : wf init.
Proof. unfold wf, tx_wf. simpl. apply NoDup_nil_2. Qed.

(** *** The order of the sink calls made for one block *)

Lemma sink_txs_bind_sublist (f : string * gset string → list Call) m :
  (∀ e, sink_txs (f e) = [] ∨ sink_txs (f e) = [e.1]) →
  sublist (sink_txs (m ≫= f)) (tx_keys m).
Proof.
  intros Hf. induction m as [|e m IH]; [done|].
  rewrite bind_cons. unfold sink_txs in *. rewrite omap_app.
  unfold tx_keys in *. rewrite fmap_cons.
  destruct (Hf e) as [-> | ->]; simpl.
  - by apply sublist_cons.
  - by apply sublist_skip.
Qed.

(** The sink calls of a newBlock event follow the order of the registry. *)
Lemma onNewBlock_sink_order st b parent :
  wf st →
  sublist (sink_txs (onNewBlock api st b parent).2)
          (tx_keys (trackedTransactions st)).
Proof.
  intros Hwf. rewrite onNewBlock_eq by done. cbn [snd].
  change (sink_txs (GetBody b :: ?l)) with (sink_txs l).
  apply sink_txs_bind_sublist. intros [k v]. unfold settle_calls. simpl.
  destruct (bool_decide _); [by right|]. destruct (isTxValid _ _ _); [by left | by right].
Qed.

(** The done calls made while the walk is at one block follow the order of
    the registry. *)
Lemma visit_sink_order bh cur m :
  tx_wf m → sublist (sink_txs (visit api bh cur m).2) (tx_keys m).
Proof.
  intros Hwf. rewrite visit_eq by done. cbn [snd].
  change (sink_txs (GetBody cur :: ?l)) with (sink_txs l).
  apply sink_txs_bind_sublist. intros [k v]. unfold done_calls. simpl.
  destruct (bool_decide _); [by right|]. destruct (bool_decide _); [by right | by left].
Qed.

End Reachable.

(** ** Where the tracker breaks its own requirements

    The header of the source asks for callbacks in the order in which the
    transactions arrived and rules out redundant calls to [onTxSettled] and
    [onTxDone]. *)

(** C1. The tracker can emit two done calls for one transaction. T is
    reported invalid in B2; finalized(B2) walks B2 and B1 and emits an
    invalid done call for T at each of them, and since T stays registered
    the next finalized event emits a third. *)
Theorem C1_done_emitted_twice :
  (∃ st,
     run invalid_api init
         [Finalized "B0"; NewTransaction "T"; NewBlock "B1" "B0";
          NewBlock "B2" "B1"; Finalized "B2"]
     = Some (st,
             [GetBody "B0"; Unpin ["B0"];
              GetBody "B1"; IsTxValid "B1" "T";
              GetBody "B2"; IsTxValid "B2" "T"; OnTxSettled "T" (Invalid "B2");
              GetBody "B2"; OnTxDone "T" (Invalid "B2");
              GetBody "B1"; OnTxDone "T" (Invalid "B1");
              Unpin ["B2"; "B1"]]))
  ∧ (∃ st tr,
       run invalid_api init
           [Finalized "B0"; NewTransaction "T"; NewBlock "B1" "B0";
            NewBlock "B2" "B1"; Finalized "B2";
            NewBlock "B3" "B2"; Finalized "B3"]
       = Some (st, tr)
       ∧ done_txs tr = ["T"; "T"; "T"]
       ∧ count_occ_of "T" (done_txs tr) = 3).
Proof.
  split.
  - eexists. vm_compute. reflexivity.
  - eexists _, _. split; [vm_compute; reflexivity|].
    split; vm_compute; reflexivity.
Qed.

(** C2. The tracker can emit two settled calls for one transaction. T is
    settled invalid by newBlock(B2), stays registered, and is settled
    invalid again by newBlock(B3), the child of B2. *)
Theorem C2_settled_emitted_twice :
  ∃ st,
    run invalid_api init
        [Finalized "B0"; NewTransaction "T"; NewBlock "B1" "B0";
         NewBlock "B2" "B1"; NewBlock "B3" "B2"]
    = Some (st,
            [GetBody "B0"; Unpin ["B0"];
             GetBody "B1"; IsTxValid "B1" "T";
             GetBody "B2"; IsTxValid "B2" "T"; OnTxSettled "T" (Invalid "B2");
             GetBody "B3"; IsTxValid "B3" "T"; OnTxSettled "T" (Invalid "B3")]).
Proof. eexists. vm_compute. reflexivity. Qed.

(** C6. One finalized event can emit done calls against the order of
    registration. T1 is registered before T2; B1 holds T1 and its child B2
    holds T2; finalized(B3) walks B3, B2, B1 and so emits the done call of
    T2 before that of T1. *)
Theorem C6_done_against_arrival_order :
  (∃ tr,
     run chain_api init
         [Finalized "B0"; NewTransaction "T1"; NewTransaction "T2";
          NewBlock "B1" "B0"; NewBlock "B2" "B1"; NewBlock "B3" "B2"]
     = Some (st_chain, tr))
  ∧ tx_keys (trackedTransactions st_chain) = ["T1"; "T2"]
  ∧ handle chain_api st_chain (Finalized "B3")
    = Some (st_chain_done, tr_chain_done)
  ∧ sink_txs tr_chain_done = ["T2"; "T1"].
Proof.
  split; [eexists; vm_compute; reflexivity|].
  split; [reflexivity|].
  split; vm_compute; reflexivity.
Qed.

(** * Further properties of the handlers *)

(** ** What [onNewBlock] does to the state, whatever the registry holds *)

Section NewBlockState.

Variable api : API.

Implicit Types (m : Tracked) (st : State) (tx b cur bh : string).

Lemma onNewBlock_blocks st b parent :
  blocks (onNewBlock api st b parent).1 = <[b := parent]> (blocks st).
Proof. unfold onNewBlock. by destruct (forEach _ _ _). Qed.

Lemma onNewBlock_cursor st b parent :
  lastFinalizedBlock (onNewBlock api st b parent).1 = lastFinalizedBlock st.
Proof. unfold onNewBlock. by destruct (forEach _ _ _). Qed.

Lemma onNewBlock_trace st b parent :
  (onNewBlock api st b parent).2
  = (forEach (onNewBlock_cb api b (list_to_set (getBody api b)))
             (trackedTransactions st) [GetBody b]).2.
Proof. unfold onNewBlock. by destruct (forEach _ _ _). Qed.

End NewBlockState.

(** ** Every call agrees with the provider *)

Section Sound.

Variable api : API.

Implicit Types (m : Tracked) (st : State) (tx b cur bh : string).

Lemma onNewBlock_sound st b parent :
  Forall (sound_call api) (onNewBlock api st b parent).2.
Proof.
  rewrite onNewBlock_trace.
  apply (forEach_invariant (λ acc, Forall (sound_call api) acc.2)).
  - repeat constructor.
  - intros k [m tr] Hall. simpl in Hall. unfold onNewBlock_cb.
    rewrite body_has. case_bool_decide as Hb; simpl.
    + apply Forall_app. split; [done|]. repeat constructor; done.
    + destruct (isTxValid api b k) eqn:Hv; simpl;
        (apply Forall_app; split; [done|]); repeat constructor; done.
Qed.

Lemma visit_sound bh cur m : Forall (sound_call api) (visit api bh cur m).2.
Proof.
  unfold visit.
  apply (forEach_invariant (λ acc, Forall (sound_call api) acc.2)).
  - repeat constructor.
  - intros k [m' tr] Hall. simpl in Hall. unfold onFinalized_cb.
    rewrite body_has. case_bool_decide as Hb; simpl.
    + apply Forall_app. split; [done|]. repeat constructor; done.
    + destruct (tx_get m' k) as [inv|]; [|done].
      destruct (bool_decide (bh ∈ inv)); [|done]. simpl.
      apply Forall_app. split; [done|]. repeat constructor; done.
Qed.

Lemma walk_sound fuel bh lastFin cur blks m u res :
  walk api fuel bh lastFin cur blks m u = Some res →
  Forall (sound_call api) res.2.
Proof.
  revert cur blks m u res. induction fuel as [|fuel IH]; intros cur blks m u res; [done|].
  simpl. pose proof (visit_sound bh cur m) as Hv.
  destruct (visit api bh cur m) as [m1 tr]. simpl in Hv.
  destruct (blks !! cur) as [parent|]; [|by intros [= <-]].
  destruct (decide (parent = EmptyString)); [by intros [= <-]|].
  destruct (decide (parent = lastFin)); [by intros [= <-]|].
  destruct (walk api fuel bh lastFin parent (delete cur blks) m1 (u ++ [cur]))
    as [[[[blks2 m2] u2] tr']|] eqn:Hw; [|done].
  intros [= <-]. simpl. apply Forall_app. split; [done|].
  exact (IH _ _ _ _ _ Hw).
Qed.

Lemma handle_sound st e st' tr :
  handle api st e = Some (st', tr) → Forall (sound_call api) tr.
Proof.
  destruct e as [b p|v|b]; simpl.
  - intros [= H]. replace tr with (onNewBlock api st b p).2 by (by rewrite H).
    apply onNewBlock_sound.
  - intros [= _ <-]. constructor.
  - unfold onFinalized.
    destruct (walk api _ _ _ _ _ _ _) as [[[[blks m] u] tr0]|] eqn:Hw; [|done].
    intros [= _ <-]. apply Forall_app. split; [|repeat constructor].
    exact (walk_sound _ _ _ _ _ _ _ _ Hw).
Qed.

(** X1. Over any event stream, from any state, every call the tracker
    makes agrees with the provider: [isTxSuccessful] is only asked, and a
    valid outcome only reported, for a transaction of the block's body, and
    with the provider's success answer; [isTxValid] is only asked, and an
    invalid outcome only reported, for a transaction outside the body; an
    invalid settlement is only reported when [isTxValid] is false. *)
Theorem X1_calls_agree_with_provider st events :
  ∃ st' tr,
    run api st events = Some (st', tr) ∧ Forall (sound_call api) tr.
Proof.
  revert st. induction events as [|e events IH]; intros st; simpl.
  - eexists _, _. split; [done | constructor].
  - destruct (handle_total api st e) as [[st1 tr1] He]. rewrite He.
    destruct (IH st1) as (st2 & tr2 & -> & Hall).
    eexists _, _. split; [done|]. apply Forall_app. split; [|done].
    by eapply handle_sound.
Qed.

End Sound.

(** ** The block index and the cursor *)

Section IndexAndCursor.

Variable api : API.

Implicit Types (m : Tracked) (st : State) (tx b cur bh : string)
  (blks : gmap string string).

Lemma chain_walk_length cursor blks cur l :
  chain_walk cursor blks cur l → (length l ≤ S (size blks))%nat.
Proof.
  induction 1 as [| | |blks cur parent l H Hne Hnc Hw IH]; simpl; try lia.
  rewrite map_size_delete_Some in IH by (by eexists).
  assert (size blks ≠ 0) by (by eapply map_size_ne_0_lookup_2).
  lia.
Qed.

Lemma lookup_foldl_delete blks (l : list string) (k : string) :
  foldl (λ acc key, delete key acc) blks l !! k
  = if decide (k ∈ l) then None else blks !! k.
Proof.
  revert blks. induction l as [|a l IH]; intros blks; cbn [foldl].
  - rewrite decide_False; [done | apply not_elem_of_nil].
  - rewrite IH. destruct (decide (k ∈ l)) as [Hin|Hn].
    + rewrite decide_True; [done | by apply list_elem_of_further].
    + destruct (decide (k = a)) as [->|Hne].
      * rewrite decide_True by apply list_elem_of_here. apply lookup_delete_eq.
      * rewrite decide_False; [by apply lookup_delete_ne|].
        intros [?|?]%elem_of_cons; done.
Qed.

(** X2. A finalization walk visits at most one block more than the index
    holds, so the loop ends even when the parent links form a cycle. *)
Theorem X2_walk_bounded_by_index st bh :
  ∃ st' tr,
    onFinalized api st bh = Some (st', tr)
    ∧ (length (getBody_args tr) ≤ S (size (blocks st)))%nat.
Proof.
  destruct (onFinalized_Some api st bh)
    as (vis & blks' & m' & tr & Hfin & Hchain & _ & Hgb & _).
  eexists _, _. split; [exact Hfin|].
  unfold getBody_args in *. rewrite omap_app, Hgb. simpl. rewrite app_nil_r.
  by eapply chain_walk_length.
Qed.

(** X3. A finalized event removes from the block index exactly the blocks
    its walk visited; every other block keeps its parent. *)
Theorem X3_finalized_prunes_visited st bh :
  ∃ st' tr,
    onFinalized api st bh = Some (st', tr)
    ∧ ∀ k, blocks st' !! k
           = if decide (k ∈ getBody_args tr) then None else blocks st !! k.
Proof.
  destruct (onFinalized_Some api st bh)
    as (vis & blks' & m' & tr & Hfin & _ & Hb & Hgb & _).
  eexists _, _. split; [exact Hfin|]. intros k. simpl.
  unfold getBody_args in *. rewrite omap_app, Hgb. simpl. rewrite app_nil_r.
  rewrite Hb. apply lookup_foldl_delete.
Qed.

(** X4. After any event stream the cursor is the block of the last
    finalized event of the stream, and the cursor the stream started with
    when it holds no finalized event: new blocks and new transactions never
    move it. *)
Theorem X4_cursor_is_last_finalized st events :
  ∃ st' tr,
    run api st events = Some (st', tr)
    ∧ lastFinalizedBlock st' = last_finalized (lastFinalizedBlock st) events.
Proof.
  revert st. induction events as [|e events IH]; intros st; simpl.
  - by eexists _, _.
  - destruct e as [b p|v|b]; simpl.
    + destruct (IH (onNewBlock api st b p).1) as (st2 & tr2 & Hr & Hc).
      destruct (onNewBlock api st b p) as [st1 tr1] eqn:E. simpl in Hr, Hc.
      rewrite Hr. eexists _, _. split; [done|]. rewrite Hc.
      f_equal. replace st1 with (onNewBlock api st b p).1 by (by rewrite E).
      apply onNewBlock_cursor.
    + destruct (IH (onNewTx st v).1) as (st2 & tr2 & Hr & Hc).
      simpl in Hr, Hc. rewrite Hr. by eexists _, _.
    + destruct (onFinalized_Some api st b)
        as (vis & blks' & m' & tr & Hfin & _).
      rewrite Hfin.
      destruct (IH {| blocks := blks'; trackedTransactions := m';
                      lastFinalizedBlock := Some b |})
        as (st2 & tr2 & Hr & Hc).
      rewrite Hr. by eexists _, _.
Qed.

(** X5. A block announced with the cursor as parent and finalized next is
    walked alone: the walk fetches the body of that block only, unpins that
    block only, and leaves the index as it was before the announcement,
    less the block. *)
Theorem X5_direct_finalization st b parent :
  lastFinalizedBlock st = Some parent →
  ∃ st2 tr,
    onFinalized api (onNewBlock api st b parent).1 b
    = Some (st2, tr ++ [Unpin [b]])
    ∧ getBody_args tr = [b]
    ∧ unpin_args tr = []
    ∧ blocks st2 = delete b (blocks st)
    ∧ lastFinalizedBlock st2 = Some b.
Proof.
  intros Hc.
  destruct (onFinalized_Some api (onNewBlock api st b parent).1 b)
    as (vis & blks' & m' & tr & Hfin & Hchain & Hb & Hgb & Hup & _).
  rewrite onNewBlock_blocks, onNewBlock_cursor, Hc in Hchain. simpl in Hchain.
  assert (Hvis : vis = [b]).
  { eapply chain_walk_det; [exact Hchain|]. apply cw_cursor.
    apply lookup_insert_eq. }
  rewrite Hvis in Hfin, Hgb, Hb. eexists _, tr.
  split; [exact Hfin|]. split; [exact Hgb|]. split; [exact Hup|].
  split; [|done]. simpl. rewrite Hb, onNewBlock_blocks. simpl.
  apply delete_insert_eq.
Qed.

(** X6. Finalizing the same block twice in a row: the first walk leaves
    the block out of the index, so the second walk visits that block alone,
    fetches its body again, unpins it again, and leaves the index alone. *)
Theorem X6_repeated_finalization st b :
  ∃ st1 tr1 st2 tr2,
    onFinalized api st b = Some (st1, tr1)
    ∧ onFinalized api st1 b = Some (st2, tr2 ++ [Unpin [b]])
    ∧ getBody_args tr2 = [b]
    ∧ blocks st2 = blocks st1.
Proof.
  destruct (onFinalized_Some api st b)
    as (vis & blks1 & m1 & tr1 & Hfin1 & Hchain1 & Hb1 & _).
  set (st1 := {| blocks := blks1; trackedTransactions := m1;
                 lastFinalizedBlock := Some b |}) in *.
  assert (Habs : blocks st1 !! b = None).
  { simpl. rewrite Hb1, lookup_foldl_delete.
    destruct (chain_walk_head _ _ _ _ Hchain1) as [tl ->].
    rewrite decide_True; [done | apply list_elem_of_here]. }
  destruct (onFinalized_Some api st1 b)
    as (vis2 & blks2 & m2 & tr2 & Hfin2 & Hchain2 & Hb2 & Hgb2 & _).
  assert (Hvis : vis2 = [b]).
  { eapply chain_walk_det; [exact Hchain2|]. by apply cw_absent. }
  rewrite Hvis in Hfin2, Hgb2, Hb2.
  eexists st1, _, _, tr2. split; [exact Hfin1|]. split; [exact Hfin2|].
  split; [exact Hgb2|]. simpl. rewrite Hb2. simpl. by apply delete_id.
Qed.

End IndexAndCursor.

(** X5 at work: B1 announced on top of the cursor B0 and finalized next. *)
Lemma X5_direct_finalization_witness :
  ∃ st2 tr,
    onFinalized chain_api
      (onNewBlock chain_api
         {| blocks := ∅; trackedTransactions := [("T1", ∅)];
            lastFinalizedBlock := Some "B0" |} "B1" "B0").1 "B1"
    = Some (st2, tr ++ [Unpin ["B1"]])
    ∧ getBody_args tr = ["B1"]
    ∧ unpin_args tr = []
    ∧ blocks st2 = delete "B1" ∅
    ∧ lastFinalizedBlock st2 = Some "B1".
Proof.
  exact (X5_direct_finalization chain_api
           {| blocks := ∅; trackedTransactions := [("T1", ∅)];
              lastFinalizedBlock := Some "B0" |} "B1" "B0" eq_refl).
Defined.

(** ** The registry across events *)

Section RegistryAcrossEvents.

Variable api : API.

Implicit Types (m : Tracked) (st : State) (tx b cur bh : string).

Lemma walk_registry_filter (vis : list string) m :
  walk_registry api vis m
  = filter (λ e, Forall (λ b, e.1 ∉ getBody api b) vis) m.
Proof.
  unfold walk_registry. revert m. induction vis as [|c vis IH]; intros m; cbn [foldl].
  - induction m as [|e m IHm]; [done|].
    rewrite filter_cons_True by constructor. by rewrite <-IHm.
  - rewrite IH. unfold survivors. rewrite list_filter_filter.
    apply list_filter_iff. intros e. rewrite Forall_cons. tauto.
Qed.

(** X7. A finalized event leaves in the registry exactly the transactions
    that are in the body of no visited block, in their order and with their
    invalidity sets untouched; so a transaction that got an invalid done
    call stays registered. *)
Theorem X7_finalized_registry st bh st' tr :
  wf st → onFinalized api st bh = Some (st', tr) →
  trackedTransactions st'
  = filter (λ e, Forall (λ b, e.1 ∉ getBody api b) (getBody_args tr))
           (trackedTransactions st).
Proof.
  intros Hwf Hfin.
  destruct (onFinalized_wf_inv api st bh st' tr Hwf Hfin) as (vis & _ & Hgb & ->).
  rewrite Hgb. apply walk_registry_filter.
Qed.

(** X8. A newBlock event neither adds, removes nor reorders registered
    transactions; an invalidity set keeps what it held and gains at most the
    new block; the block is indexed under the announced parent, replacing
    what the index held for it, and no other index entry changes. *)
Theorem X8_newBlock_state st b parent :
  wf st →
  let st' := (onNewBlock api st b parent).1 in
  tx_keys (trackedTransactions st') = tx_keys (trackedTransactions st)
  ∧ (∀ tx inv, tx_get (trackedTransactions st) tx = Some inv →
       ∃ inv', tx_get (trackedTransactions st') tx = Some inv'
               ∧ inv ⊆ inv' ∧ inv' ⊆ inv ∪ {[b]})
  ∧ blocks st' !! b = Some parent
  ∧ (∀ k, k ≠ b → blocks st' !! k = blocks st !! k).
Proof.
  intros Hwf. cbv zeta. split; [|split; [|split]].
  - rewrite onNewBlock_eq by done. apply settle_entry_keys.
  - intros tx inv Hget. rewrite onNewBlock_tx_get, Hget by done. simpl.
    eexists. split; [reflexivity|]. unfold settle_entry. simpl.
    destruct (bool_decide (tx ∈ getBody api b)); [set_solver|].
    destruct (isTxValid api b tx); simpl; set_solver.
  - rewrite onNewBlock_blocks. apply lookup_insert_eq.
  - intros k Hk. rewrite onNewBlock_blocks. by apply lookup_insert_ne.
Qed.

Lemma omap_bind_calls {B : Type} (f : Call → option B)
    (g : string * gset string → list Call) m :
  omap f (m ≫= g) = m ≫= (λ e, omap f (g e)).
Proof.
  induction m as [|e m IH]; [done|].
  rewrite !bind_cons, omap_app. by rewrite IH.
Qed.

Lemma bind_nil_all {A B : Type} (f : A → list B) (l : list A) :
  (∀ x, f x = []) → l ≫= f = [].
Proof.
  intros Hf. induction l as [|a l IH]; [done|].
  by rewrite bind_cons, Hf, IH.
Qed.

(** X9. A newBlock event first fetches one body, that of the new block,
    and only then asks the provider one question for each registered
    transaction, in the order of the registry: the trace is [getBody] of the
    new block followed by calls among which there is no further [getBody]
    and whose queries are the registered transactions in order. It emits no
    done call and does not unpin, and every call it makes is about the new
    block. *)
Theorem X9_newBlock_calls st b parent :
  wf st →
  let tr := (onNewBlock api st b parent).2 in
  getBody_args tr = [b]
  ∧ query_txs tr = tx_keys (trackedTransactions st)
  ∧ done_txs tr = []
  ∧ unpin_args tr = []
  ∧ Forall (λ c, call_block c = Some b) tr
  ∧ ∃ rest,
      tr = GetBody b :: rest
      ∧ getBody_args rest = []
      ∧ query_txs rest = tx_keys (trackedTransactions st).
Proof.
  intros Hwf. cbv zeta. rewrite onNewBlock_eq by done. cbn [snd].
  assert (Hcase : ∀ e : string * gset string,
            settle_calls api b e
            = [IsTxSuccessful b e.1;
               OnTxSettled e.1 (Valid b (isTxSuccessful api b e.1))]
            ∨ settle_calls api b e = [IsTxValid b e.1]
            ∨ settle_calls api b e
              = [IsTxValid b e.1; OnTxSettled e.1 (Invalid b)]).
  { intros e. unfold settle_calls. destruct (bool_decide _); [by left|].
    destruct (isTxValid _ _ _); [right; by left | right; by right]. }
  assert (Hnobody : getBody_args (trackedTransactions st ≫= settle_calls api b) = []).
  { unfold getBody_args. rewrite omap_bind_calls, bind_nil_all; [done|].
    intros e. by destruct (Hcase e) as [-> | [-> | ->]]. }
  assert (Hquery : query_txs (trackedTransactions st ≫= settle_calls api b)
                   = tx_keys (trackedTransactions st)).
  { unfold query_txs, tx_keys. rewrite omap_bind_calls.
    rewrite <-(bind_singleton_fmap fst). apply list_bind_ext; [|done].
    intros e. by destruct (Hcase e) as [-> | [-> | ->]]. }
  split; [|split; [|split; [|split; [|split]]]].
  - change (getBody_args (GetBody b :: ?l)) with (b :: getBody_args l).
    by rewrite Hnobody.
  - change (query_txs (GetBody b :: ?l)) with (query_txs l). exact Hquery.
  - change (done_txs (GetBody b :: ?l)) with (done_txs l).
    unfold done_txs. rewrite omap_bind_calls, bind_nil_all; [done|].
    intros e. by destruct (Hcase e) as [-> | [-> | ->]].
  - change (unpin_args (GetBody b :: ?l)) with (unpin_args l).
    unfold unpin_args. rewrite omap_bind_calls, bind_nil_all; [done|].
    intros e. by destruct (Hcase e) as [-> | [-> | ->]].
  - constructor; [done|]. apply Forall_forall. intros c Hc.
    apply list_elem_of_bind in Hc as (e & Hc & _).
    destruct (Hcase e) as [H | [H | H]]; rewrite H in Hc;
      repeat (apply elem_of_cons in Hc as [->|Hc]; [done|]);
      by apply elem_of_nil in Hc.
  - eexists. split; [reflexivity|]. split; [exact Hnobody | exact Hquery].
Qed.

(** X10. Within one newBlock event the settled calls follow the order in
    which the transactions were registered. *)
Theorem X10_newBlock_arrival_order st b parent :
  wf st →
  sublist (settled_txs (onNewBlock api st b parent).2)
          (tx_keys (trackedTransactions st))
  ∧ sink_txs (onNewBlock api st b parent).2
    = settled_txs (onNewBlock api st b parent).2.
Proof.
  intros Hwf.
  assert (Heq : sink_txs (onNewBlock api st b parent).2
                = settled_txs (onNewBlock api st b parent).2).
  { rewrite onNewBlock_eq by done. cbn [snd].
    change (sink_txs (GetBody b :: ?l)) with (sink_txs l).
    change (settled_txs (GetBody b :: ?l)) with (settled_txs l).
    unfold sink_txs, settled_txs. rewrite !omap_bind_calls.
    apply list_bind_ext; [|done]. intros e. unfold settle_calls.
    destruct (bool_decide _); [done|]. by destruct (isTxValid _ _ _). }
  split; [|exact Heq]. rewrite <-Heq. by apply onNewBlock_sink_order.
Qed.

Lemma survivors_keys_sublist cur m :
  sublist (tx_keys (survivors api cur m)) (tx_keys m).
Proof. unfold tx_keys, survivors. apply fmap_sublist, sublist_filter. Qed.

Lemma walk_calls_groups bh (vis : list string) m :
  ∃ groups : list (list string),
    sink_txs (walk_calls api bh vis m) = concat groups
    ∧ length groups = length vis
    ∧ Forall (λ g, sublist g (tx_keys m)) groups.
Proof.
  revert m. induction vis as [|c vis IH]; intros m.
  - exists []. split; [done|]. split; [done | constructor].
  - destruct (IH (survivors api c m)) as (groups & Heq & Hlen & Hall).
    exists (sink_txs (m ≫= done_calls api bh c) :: groups).
    split; [|split].
    + simpl. change (sink_txs (GetBody c :: ?l)) with (sink_txs l).
      unfold sink_txs in *. by rewrite omap_app, Heq.
    + simpl. by rewrite Hlen.
    + constructor.
      * apply sink_txs_bind_sublist. intros [k v]. unfold done_calls. simpl.
        destruct (bool_decide _); [by right|].
        destruct (bool_decide _); [by right | by left].
      * eapply Forall_impl; [exact Hall|]. intros g Hg.
        etrans; [exact Hg | apply survivors_keys_sublist].
Qed.

Lemma walk_done_is_sink (l : list Call) :
  Forall (is_walk_call api) l → done_txs l = sink_txs l.
Proof.
  unfold done_txs, sink_txs. induction 1 as [|c l Hc _ IHl]; [done|].
  rewrite !omap_cons_call. destruct c; try done. by rewrite IHl.
Qed.

Lemma done_at_bind bh cur m :
  done_at (m ≫= done_calls api bh cur)
  = (λ t, (t, cur)) <$> sink_txs (m ≫= done_calls api bh cur).
Proof.
  unfold done_at, sink_txs. induction m as [|e m IH]; [done|].
  rewrite bind_cons, !omap_app, fmap_app, IH. f_equal.
  unfold done_calls. destruct (bool_decide _); [done|].
  by destruct (bool_decide _).
Qed.

Lemma sink_txs_done_group bh cur m :
  sink_txs (m ≫= done_calls api bh cur) = done_group api bh cur m.
Proof.
  unfold sink_txs, done_group. induction m as [|[k v] m IH]; [done|].
  rewrite bind_cons, omap_app, IH. unfold done_calls at 1. simpl.
  case_bool_decide as Hb.
  - rewrite filter_cons_True by (simpl; tauto). done.
  - case_bool_decide as Hi.
    + rewrite filter_cons_True by (simpl; tauto). done.
    + rewrite filter_cons_False by (simpl; tauto). done.
Qed.

(** The groups of [walk_calls_groups], each tied to its block. *)
Lemma walk_calls_groups_at bh (vis : list string) m :
  ∃ groups : list (list string),
    sink_txs (walk_calls api bh vis m) = concat groups
    ∧ length groups = length vis
    ∧ Forall (λ g, sublist g (tx_keys m)) groups
    ∧ done_at (walk_calls api bh vis m)
      = concat (zip_with (λ cur g, (λ t, (t, cur)) <$> g) vis groups)
    ∧ groups = walk_groups api bh vis m.
Proof.
  revert m. induction vis as [|c vis IH]; intros m.
  - exists []. split; [done|]. split; [done|]. split; [constructor | done].
  - destruct (IH (survivors api c m)) as (groups & Heq & Hlen & Hall & Hat & Hgr).
    exists (sink_txs (m ≫= done_calls api bh c) :: groups).
    split; [|split; [|split; [|split;
      [|by rewrite sink_txs_done_group, Hgr]]]].
    + simpl. change (sink_txs (GetBody c :: ?l)) with (sink_txs l).
      unfold sink_txs in *. by rewrite omap_app, Heq.
    + simpl. by rewrite Hlen.
    + constructor.
      * apply sink_txs_bind_sublist. intros [k v]. unfold done_calls. simpl.
        destruct (bool_decide _); [by right|].
        destruct (bool_decide _); [by right | by left].
      * eapply Forall_impl; [exact Hall|]. intros g Hg.
        etrans; [exact Hg | apply survivors_keys_sublist].
    + cbn [walk_calls zip_with concat].
      change (done_at ((GetBody c :: ?l1) ++ ?l2)) with (done_at (l1 ++ l2)).
      unfold done_at at 1. rewrite omap_app.
      fold (done_at (m ≫= done_calls api bh c)).
      fold (done_at (walk_calls api bh vis (survivors api c m))).
      by rewrite done_at_bind, Hat.
Qed.

(** X11. The done calls of one finalized event come in one group for each
    visited block, in the order of the walk: the calls of the i-th group are
    all reported for the i-th visited block, and inside each group they
    follow the order in which the transactions were registered. The i-th
    group is [done_group] at the i-th block: the transactions still
    registered when the walk reaches it that are in its body or have the
    block of the event in their invalidity set, in registry order. *)
Theorem X11_finalized_order_by_block st bh st' tr :
  wf st → onFinalized api st bh = Some (st', tr) →
  ∃ groups : list (list string),
    done_txs tr = concat groups
    ∧ length groups = length (getBody_args tr)
    ∧ Forall (λ g, sublist g (tx_keys (trackedTransactions st))) groups
    ∧ done_at tr
      = concat (zip_with (λ cur g, (λ t, (t, cur)) <$> g)
                         (getBody_args tr) groups)
    ∧ groups = walk_groups api bh (getBody_args tr) (trackedTransactions st).
Proof.
  intros Hwf Hfin.
  destruct (onFinalized_wf_inv api st bh st' tr Hwf Hfin) as (vis & Htr & Hgb & _).
  destruct (walk_calls_groups_at bh vis (trackedTransactions st))
    as (groups & Heq & Hlen & Hall & Hat & Hg).
  exists groups.
  split; [|split; [by rewrite Hgb | split; [done | split; [|by rewrite Hgb]]]].
  - rewrite <-Heq, Htr. unfold done_txs. rewrite omap_app. simpl.
    rewrite app_nil_r. apply walk_done_is_sink, walk_calls_kinds.
  - rewrite Hgb, <-Hat, Htr. unfold done_at. rewrite omap_app. simpl.
    by rewrite app_nil_r.
Qed.

Lemma walk_calls_blocks bh (vis : list string) m c :
  c ∈ walk_calls api bh vis m → ∃ b, call_block c = Some b ∧ b ∈ vis.
Proof.
  revert m. induction vis as [|cur vis IH]; intros m; simpl.
  - intros H. by apply elem_of_nil in H.
  - intros [->|[Hc|Hc]%elem_of_app]%elem_of_cons.
    + exists cur. split; [done | apply list_elem_of_here].
    + exists cur. split; [|apply list_elem_of_here].
      apply list_elem_of_bind in Hc as (e & Hc & _). unfold done_calls in Hc.
      destruct (bool_decide _).
      * repeat (apply elem_of_cons in Hc as [->|Hc]; [done|]).
        by apply elem_of_nil in Hc.
      * destruct (bool_decide _); [|by apply elem_of_nil in Hc].
        by apply list_elem_of_singleton in Hc as ->.
    + destruct (IH _ Hc) as (b' & Hb & Hin). exists b'.
      split; [done | by apply list_elem_of_further].
Qed.

Lemma walk_no_settled (l : list Call) :
  Forall (is_walk_call api) l → settled_txs l = [].
Proof.
  unfold settled_txs. induction 1 as [|c l Hc _ IHl]; [done|].
  rewrite omap_cons_call. by destruct c.
Qed.

(** X12. A finalized event emits no settled call and asks no validity
    question, and every call it makes before the final unpin is about a
    block its walk visited. *)
Theorem X12_finalized_calls st bh st' tr :
  wf st → onFinalized api st bh = Some (st', tr) →
  settled_txs tr = []
  ∧ Forall (λ c, ¬ is_validity_query c) tr
  ∧ ∃ tr0, tr = tr0 ++ [Unpin (getBody_args tr)]
           ∧ ∀ c, c ∈ tr0 →
               ∃ b, call_block c = Some b ∧ b ∈ getBody_args tr.
Proof.
  intros Hwf Hfin.
  destruct (onFinalized_wf_inv api st bh st' tr Hwf Hfin) as (vis & Htr & Hgb & _).
  pose proof (walk_calls_kinds api bh vis (trackedTransactions st)) as Hk.
  split; [|split].
  - rewrite Htr. unfold settled_txs. rewrite omap_app. simpl. rewrite app_nil_r.
    by apply walk_no_settled.
  - rewrite Htr. apply Forall_app. split; [|repeat constructor; simpl; tauto].
    eapply Forall_impl; [exact Hk|]. intros c Hc Hq. by destruct c.
  - rewrite Hgb. exists (walk_calls api bh vis (trackedTransactions st)).
    split; [exact Htr|]. intros c Hc. by eapply walk_calls_blocks.
Qed.

End RegistryAcrossEvents.

(** ** One transaction across an event stream *)

Section OneTransaction.

Variable api : API.

Implicit Types (m : Tracked) (st : State) (tx b cur bh : string).

Lemma handle_unregistered st e st' tr tx :
  wf st → tx_get (trackedTransactions st) tx = None → e ≠ NewTransaction tx →
  handle api st e = Some (st', tr) →
  Forall (λ c, ¬ mentions tx c) tr ∧ tx_get (trackedTransactions st') tx = None.
Proof.
  intros Hwf Hget Hne. destruct e as [b p|v|b]; simpl.
  - intros [= H].
    replace st' with (onNewBlock api st b p).1 by (by rewrite H).
    replace tr with (onNewBlock api st b p).2 by (by rewrite H).
    split.
    + rewrite onNewBlock_eq by done. cbn [snd]. constructor; [simpl; tauto|].
      apply bind_no_mention; [apply settle_calls_mention | done].
    + by rewrite onNewBlock_tx_get, Hget.
  - intros [= <- <-]. split; [constructor|]. simpl.
    rewrite tx_get_set. rewrite decide_False; [done | congruence].
  - intros Hfin.
    destruct (onFinalized_wf_inv api st b st' tr Hwf Hfin) as (vis & -> & _ & ->).
    split; [|by apply tx_get_walk_registry_None].
    apply Forall_app. split; [by apply walk_calls_no_mention|].
    repeat constructor. simpl. tauto.
Qed.

Lemma run_unregistered st events tx :
  wf st → tx_get (trackedTransactions st) tx = None →
  NewTransaction tx ∉ events →
  ∃ st' tr,
    run api st events = Some (st', tr)
    ∧ Forall (λ c, ¬ mentions tx c) tr
    ∧ tx_get (trackedTransactions st') tx = None.
Proof.
  revert st. induction events as [|e events IH]; intros st Hwf Hget Hn; simpl.
  - eexists _, _. split; [done|]. split; [constructor | done].
  - apply not_elem_of_cons in Hn as [Hne Hn].
    destruct (handle_total api st e) as [[st1 tr1] He]. rewrite He.
    destruct (handle_unregistered st e st1 tr1 tx Hwf Hget) as [Hall1 Hget1];
      [congruence | done |].
    destruct (IH st1) as (st2 & tr2 & -> & Hall2 & Hget2);
      [by eapply handle_wf | done | done |].
    eexists _, _. split; [done|]. split; [by apply Forall_app | done].
Qed.

(** X13. A transaction that is not registered, and that no newTransaction
    event of the stream carries, is never the subject of a provider query
    or of a sink call, and is still not registered at the end. *)
Theorem X13_unregistered_is_silent st events tx :
  wf st → tx_get (trackedTransactions st) tx = None →
  NewTransaction tx ∉ events →
  ∃ st' tr,
    run api st events = Some (st', tr)
    ∧ calls_for tx tr = []
    ∧ tx_get (trackedTransactions st') tx = None.
Proof.
  intros Hwf Hget Hn.
  destruct (run_unregistered st events tx Hwf Hget Hn) as (st' & tr & Hr & Hall & H).
  exists st', tr. split; [done|]. split; [|done].
  unfold calls_for. clear Hr. induction Hall as [|c l Hc _ IHl]; [done|].
  by rewrite filter_cons_False.
Qed.

Lemma valid_done_count_app tx (l1 l2 : list Call) :
  valid_done_count tx (l1 ++ l2)
  = (valid_done_count tx l1 + valid_done_count tx l2)%nat.
Proof. unfold valid_done_count. by rewrite filter_app, length_app. Qed.

Lemma valid_done_count_no_mention tx (l : list Call) :
  Forall (λ c, ¬ mentions tx c) l → valid_done_count tx l = 0%nat.
Proof.
  unfold valid_done_count. induction 1 as [|c l Hc _ IHl]; [done|].
  rewrite filter_cons_False; [done|].
  intros Hv. apply Hc. destruct c as [| | | | |t []]; done.
Qed.

Lemma valid_done_count_calls_for tx (l : list Call) :
  valid_done_count tx l = valid_done_count tx (calls_for tx l).
Proof.
  unfold valid_done_count, calls_for. rewrite list_filter_filter.
  f_equal. apply list_filter_iff. intros c. split; [|tauto].
  intros Hv. split; [done|]. destruct c as [| | | | |t []]; done.
Qed.

Lemma valid_done_count_bind bh cur m tx :
  tx_wf m →
  valid_done_count tx (m ≫= done_calls api bh cur)
  = match tx_get m tx with
    | Some _ => if bool_decide (tx ∈ getBody api cur) then 1%nat else 0%nat
    | None => 0%nat
    end.
Proof.
  intros Hwf. rewrite valid_done_count_calls_for.
  rewrite calls_for_bind by (apply done_calls_mention || done).
  destruct (tx_get m tx) as [v|]; [|done].
  unfold done_calls, valid_done_count. simpl.
  destruct (bool_decide (tx ∈ getBody api cur)).
  - rewrite filter_cons_False by (simpl; tauto).
    by rewrite filter_cons_True.
  - destruct (bool_decide (bh ∈ v)); [|done].
    by rewrite filter_cons_False by (simpl; tauto).
Qed.

(** Inside one walk: at most one valid done call for [tx], and after one
    [tx] is gone. *)
Lemma walk_calls_valid_once bh (vis : list string) m tx :
  tx_wf m →
  (valid_done_count tx (walk_calls api bh vis m) ≤ 1)%nat
  ∧ (valid_done_count tx (walk_calls api bh vis m) = 1%nat →
     tx_get (walk_registry api vis m) tx = None).
Proof.
  revert m. induction vis as [|c vis IH]; intros m Hwf.
  - simpl. split; [unfold valid_done_count; simpl; lia | done].
  - cbn [walk_calls]. rewrite valid_done_count_app.
    change (valid_done_count tx (GetBody c :: ?l)) with (valid_done_count tx l).
    rewrite valid_done_count_bind by done.
    change (walk_registry api (c :: vis) m)
      with (walk_registry api vis (survivors api c m)).
    destruct (tx_get m tx) as [v|] eqn:Hget.
    + case_bool_decide as Hb.
      * assert (Hs : tx_get (survivors api c m) tx = None).
        { rewrite tx_get_survivors. by rewrite decide_True. }
        rewrite (valid_done_count_no_mention tx
                   (walk_calls api bh vis (survivors api c m)))
          by (by apply walk_calls_no_mention).
        split; [lia|]. intros _. by apply tx_get_walk_registry_None.
      * destruct (IH (survivors api c m) (survivors_wf api c m Hwf)) as [H1 H2].
        split; [lia|]. intros H. apply H2. lia.
    + assert (Hs : tx_get (survivors api c m) tx = None).
      { rewrite tx_get_survivors. by destruct (decide _). }
      rewrite (valid_done_count_no_mention tx
                 (walk_calls api bh vis (survivors api c m)))
        by (by apply walk_calls_no_mention).
      split; [lia | lia].
Qed.

Lemma handle_valid_once st e st' tr tx :
  wf st → handle api st e = Some (st', tr) →
  (valid_done_count tx tr ≤ 1)%nat
  ∧ (valid_done_count tx tr = 1%nat → tx_get (trackedTransactions st') tx = None).
Proof.
  intros Hwf. destruct e as [b p|v|b]; simpl.
  - intros [= H]. replace tr with (onNewBlock api st b p).2 by (by rewrite H).
    assert (H0 : valid_done_count tx (onNewBlock api st b p).2 = 0%nat).
    { rewrite onNewBlock_eq by done. cbn [snd].
      change (valid_done_count tx (GetBody b :: ?l)) with (valid_done_count tx l).
      rewrite valid_done_count_calls_for.
      rewrite calls_for_bind by (apply settle_calls_mention || done).
      destruct (tx_get (trackedTransactions st) tx) as [inv|]; [|done].
      unfold settle_calls. simpl. destruct (bool_decide _); [done|].
      by destruct (isTxValid _ _ _). }
    rewrite H0. split; [lia | lia].
  - intros [= _ <-]. unfold valid_done_count. simpl. split; [lia | lia].
  - intros Hfin.
    destruct (onFinalized_wf_inv api st b st' tr Hwf Hfin) as (vis & -> & _ & ->).
    rewrite valid_done_count_app.
    change (valid_done_count tx [Unpin vis]) with 0%nat. rewrite Nat.add_0_r.
    by apply walk_calls_valid_once.
Qed.

(** X14. Over any event stream that does not register [tx] anew, [tx]
    gets at most one valid done call, and once it got one it is out of the
    registry for the rest of the stream. *)
Theorem X14_valid_done_at_most_once st events tx :
  wf st → NewTransaction tx ∉ events →
  ∃ st' tr,
    run api st events = Some (st', tr)
    ∧ (valid_done_count tx tr ≤ 1)%nat
    ∧ (valid_done_count tx tr = 1%nat →
       tx_get (trackedTransactions st') tx = None).
Proof.
  revert st. induction events as [|e events IH]; intros st Hwf Hn; simpl.
  - eexists _, _. split; [done|]. unfold valid_done_count. simpl. split; [lia | lia].
  - apply not_elem_of_cons in Hn as [Hne Hn].
    destruct (handle_total api st e) as [[st1 tr1] He]. rewrite He.
    pose proof (handle_wf api st e st1 tr1 Hwf He) as Hwf1.
    destruct (handle_valid_once st e st1 tr1 tx Hwf He) as [H1 H2].
    destruct (decide (valid_done_count tx tr1 = 1%nat)) as [Hone|Hzero].
    + destruct (run_unregistered st1 events tx Hwf1 (H2 Hone) Hn)
        as (st2 & tr2 & -> & Hall & Hget).
      eexists _, _. split; [done|]. rewrite valid_done_count_app.
      rewrite (valid_done_count_no_mention tx tr2) by done.
      split; [lia | done].
    + destruct (IH st1 Hwf1 Hn) as (st2 & tr2 & -> & H3 & H4).
      eexists _, _. split; [done|]. rewrite valid_done_count_app.
      split; [lia|]. intros H. apply H4. lia.
Qed.

(** X15. Registering transactions that are new and pairwise distinct makes
    no call, appends them to the registry in the order of their events,
    each with an empty invalidity set, and changes nothing else. *)
Theorem X15_registration_order st (txs : list string) :
  NoDup txs →
  (∀ tx, tx ∈ txs → tx_get (trackedTransactions st) tx = None) →
  ∃ st',
    run api st (NewTransaction <$> txs) = Some (st', [])
    ∧ tx_keys (trackedTransactions st') = tx_keys (trackedTransactions st) ++ txs
    ∧ (∀ tx, tx ∈ txs → tx_get (trackedTransactions st') tx = Some ∅)
    ∧ (∀ tx, tx ∉ txs →
         tx_get (trackedTransactions st') tx = tx_get (trackedTransactions st) tx)
    ∧ blocks st' = blocks st
    ∧ lastFinalizedBlock st' = lastFinalizedBlock st.
Proof.
  revert st. induction txs as [|a txs IH]; intros st Hnd Hfresh.
  - exists st. simpl. rewrite app_nil_r. repeat split; try done.
    intros tx H. by apply elem_of_nil in H.
  - apply NoDup_cons in Hnd as [Ha Hnd].
    destruct (IH (onNewTx st a).1 Hnd) as (st' & Hr & Hk & Hin & Hout & Hb & Hc).
    { intros tx Htx. simpl. rewrite tx_get_set.
      rewrite decide_False by (intros ->; done).
      apply Hfresh. by apply list_elem_of_further. }
    exists st'. rewrite fmap_cons.
    change (run api st (NewTransaction a :: (NewTransaction <$> txs)))
      with (match run api (onNewTx st a).1 (NewTransaction <$> txs) with
            | Some (st2, tr2) => Some (st2, [] ++ tr2)
            | None => None
            end).
    rewrite Hr. split; [done|]. split; [|split; [|split; [|split]]].
    + rewrite Hk. simpl. rewrite tx_keys_set_absent.
      * by rewrite <-(assoc_L (++)).
      * apply tx_get_None. apply Hfresh. apply list_elem_of_here.
    + intros tx [->|Htx]%elem_of_cons; [|by apply Hin].
      rewrite Hout by done. simpl. rewrite tx_get_set. by rewrite decide_True.
    + intros tx [Hne Htx]%not_elem_of_cons. rewrite Hout by done. simpl.
      rewrite tx_get_set. by rewrite decide_False.
    + by rewrite Hb.
    + by rewrite Hc.
Qed.

End OneTransaction.

(** ** The further properties at work *)

(** X7 at work: finalized(B3) on the chain removes T1 and T2, each in the
    body of a visited block. *)
Lemma X7_finalized_registry_witness :
  wf st_chain
  ∧ onFinalized chain_api st_chain "B3" = Some (st_chain_done, tr_chain_done)
  ∧ trackedTransactions st_chain_done
    = filter (λ e, Forall (λ b, e.1 ∉ getBody chain_api b)
                          (getBody_args tr_chain_done))
             (trackedTransactions st_chain).
Proof.
  split; [exact st_chain_wf|]. split; [exact st_chain_finalized|].
  exact (X7_finalized_registry chain_api st_chain "B3" _ _
           st_chain_wf st_chain_finalized).
Defined.

(** X8 at work: B2, where everything is invalid, announced to T1 and T2. *)
Lemma X8_newBlock_state_witness :
  wf st_two
  ∧ tx_keys (trackedTransactions (onNewBlock invalid_api_all st_two "B2" "B1").1)
    = ["T1"; "T2"]
  ∧ blocks (onNewBlock invalid_api_all st_two "B2" "B1").1 !! "B2" = Some "B1".
Proof.
  split; [exact st_two_wf|].
  destruct (X8_newBlock_state invalid_api_all st_two "B2" "B1" st_two_wf)
    as (H1 & _ & H3 & _).
  split; [exact H1 | exact H3].
Defined.

(** X9 at work: B1 announced to T1 and T2. *)
Lemma X9_newBlock_calls_witness :
  wf st_two
  ∧ getBody_args (onNewBlock chain_api st_two "B1" "B0").2 = ["B1"]
  ∧ query_txs (onNewBlock chain_api st_two "B1" "B0").2 = ["T1"; "T2"]
  ∧ ∃ rest,
      (onNewBlock chain_api st_two "B1" "B0").2 = GetBody "B1" :: rest
      ∧ getBody_args rest = []
      ∧ query_txs rest = ["T1"; "T2"].
Proof.
  split; [exact st_two_wf|].
  destruct (X9_newBlock_calls chain_api st_two "B1" "B0" st_two_wf)
    as (H1 & H2 & _ & _ & _ & H6).
  split; [exact H1 | split; [exact H2 | exact H6]].
Defined.

(** X10 at work: B2, where everything is invalid, settles T1 then T2. *)
Lemma X10_newBlock_arrival_order_witness :
  wf st_two
  ∧ sublist (settled_txs (onNewBlock invalid_api_all st_two "B2" "B1").2)
            ["T1"; "T2"].
Proof.
  split; [exact st_two_wf|].
  exact (proj1 (X10_newBlock_arrival_order invalid_api_all st_two "B2" "B1"
                  st_two_wf)).
Defined.

(** X11 at work: the walk B3, B2, B1 of the chain. *)
Lemma X11_finalized_order_by_block_witness :
  wf st_chain
  ∧ onFinalized chain_api st_chain "B3" = Some (st_chain_done, tr_chain_done)
  ∧ ∃ groups : list (list string),
      done_txs tr_chain_done = concat groups
      ∧ length groups = length (getBody_args tr_chain_done)
      ∧ Forall (λ g, sublist g (tx_keys (trackedTransactions st_chain))) groups
      ∧ done_at tr_chain_done
        = concat (zip_with (λ cur g, (λ t, (t, cur)) <$> g)
                           (getBody_args tr_chain_done) groups)
      ∧ groups = walk_groups chain_api "B3" (getBody_args tr_chain_done)
                             (trackedTransactions st_chain).
Proof.
  split; [exact st_chain_wf|]. split; [exact st_chain_finalized|].
  exact (X11_finalized_order_by_block chain_api st_chain "B3" _ _
           st_chain_wf st_chain_finalized).
Defined.

(** X12 at work: the walk B2, B1 with T recorded invalid in B2. *)
Lemma X12_finalized_calls_witness :
  wf st_invalid
  ∧ onFinalized invalid_api st_invalid "B2"
    = Some (st_invalid_done, tr_invalid_done)
  ∧ settled_txs tr_invalid_done = []
  ∧ Forall (λ c, ¬ is_validity_query c) tr_invalid_done.
Proof.
  split; [exact st_invalid_wf|]. split; [exact st_invalid_finalized|].
  destruct (X12_finalized_calls invalid_api st_invalid "B2" _ _
              st_invalid_wf st_invalid_finalized) as (H1 & H2 & _).
  split; [exact H1 | exact H2].
Defined.

(** X13 at work: U is never registered while T goes through the chain. *)
Lemma X13_unregistered_is_silent_witness :
  ∃ st' tr,
    run invalid_api init
        [NewTransaction "T"; NewBlock "B1" "B0"; NewBlock "B2" "B1";
         Finalized "B2"]
    = Some (st', tr)
    ∧ calls_for "U" tr = []
    ∧ tx_get (trackedTransactions st') "U" = None.
Proof.
  apply (X13_unregistered_is_silent invalid_api init
           [NewTransaction "T"; NewBlock "B1" "B0"; NewBlock "B2" "B1";
            Finalized "B2"] "U").
  - unfold wf, tx_wf. by_compute.
  - reflexivity.
  - by_compute.
Defined.

(** X14 at work: T1, registered, through finalized(B3) and a second
    finalized(B3). *)
Lemma X14_valid_done_at_most_once_witness :
  ∃ st' tr,
    run chain_api st_chain [Finalized "B3"; Finalized "B3"] = Some (st', tr)
    ∧ (valid_done_count "T1" tr ≤ 1)%nat
    ∧ (valid_done_count "T1" tr = 1%nat →
       tx_get (trackedTransactions st') "T1" = None).
Proof.
  apply (X14_valid_done_at_most_once chain_api st_chain
           [Finalized "B3"; Finalized "B3"] "T1").
  - exact st_chain_wf.
  - by_compute.
Defined.

(** X15 at work: T1 then T2 registered from the initial state. *)
Lemma X15_registration_order_witness :
  ∃ st',
    run chain_api init (NewTransaction <$> ["T1"; "T2"]) = Some (st', [])
    ∧ tx_keys (trackedTransactions st') = ["T1"; "T2"].
Proof.
  destruct (X15_registration_order chain_api init ["T1"; "T2"])
    as (st' & H1 & H2 & _).
  - by_compute.
  - intros tx _. reflexivity.
  - exists st'. split; [exact H1 | exact H2].
Defined.

(** ** Invalid done calls and the settlements before them *)

Section InvalidHistory.

Variable api : API.

Implicit Types (m : Tracked) (st : State) (tx b cur bh : string).

Lemma tx_get_walk_registry_Some (vis : list string) m tx inv :
  tx_get (walk_registry api vis m) tx = Some inv → tx_get m tx = Some inv.
Proof.
  unfold walk_registry. revert m. induction vis as [|c vis IH]; intros m; [done|].
  cbn [foldl]. intros H. apply IH in H. rewrite tx_get_survivors in H.
  by destruct (decide _).
Qed.

Lemma handle_recorded_was_settled st e st' tr0 tr :
  wf st → recorded_was_settled st tr0 →
  handle api st e = Some (st', tr) →
  recorded_was_settled st' (tr0 ++ tr).
Proof.
  intros Hwf Hinv. destruct e as [b p|v|b]; simpl.
  - intros [= H] tx inv' b' Hget Hb'.
    replace st' with (onNewBlock api st b p).1 in Hget by (by rewrite H).
    replace tr with (onNewBlock api st b p).2 by (by rewrite H).
    rewrite onNewBlock_tx_get in Hget by done.
    destruct (tx_get (trackedTransactions st) tx) as [inv|] eqn:Hg; [|done].
    simpl in Hget. injection Hget as <-.
    apply elem_of_app. unfold settle_entry in Hb'. simpl in Hb'.
    assert (Hold : b' ∈ inv → OnTxSettled tx (Invalid b') ∈ tr0 ∨
                   OnTxSettled tx (Invalid b') ∈ (onNewBlock api st b p).2).
    { intros Hin. left. by eapply Hinv. }
    case_bool_decide as Hbody; [by apply Hold|].
    destruct (isTxValid api b tx) eqn:Hv; [by apply Hold|].
    simpl in Hb'. apply elem_of_union in Hb' as [Hin|Hin]; [by apply Hold|].
    apply elem_of_singleton in Hin as ->. right.
    rewrite onNewBlock_eq by done. cbn [snd]. apply list_elem_of_further.
    apply list_elem_of_bind. exists (tx, inv).
    split; [|by apply tx_get_elem_of].
    unfold settle_calls. simpl. rewrite bool_decide_eq_false_2 by done.
    rewrite Hv. apply list_elem_of_further, list_elem_of_here.
  - intros [= <- <-] tx inv b' Hget Hb'. simpl in Hget.
    rewrite tx_get_set in Hget. destruct (decide (v = tx)) as [->|Hne].
    + injection Hget as <-. by apply not_elem_of_empty in Hb'.
    + apply elem_of_app. left. by eapply Hinv.
  - intros Hfin tx inv b' Hget Hb'.
    destruct (onFinalized_wf_inv api st b st' tr Hwf Hfin) as (vis & _ & _ & Hreg).
    rewrite Hreg in Hget. apply tx_get_walk_registry_Some in Hget.
    apply elem_of_app. left. by eapply Hinv.
Qed.

Lemma run_recorded_was_settled st events st' tr0 tr :
  wf st → recorded_was_settled st tr0 →
  run api st events = Some (st', tr) →
  recorded_was_settled st' (tr0 ++ tr).
Proof.
  revert st tr0 tr. induction events as [|e events IH]; intros st tr0 tr Hwf Hinv; simpl.
  - intros [= <- <-]. by rewrite app_nil_r.
  - destruct (handle api st e) as [[st1 tr1]|] eqn:He; [|done].
    destruct (run api st1 events) as [[st2 tr2]|] eqn:Hr; [|done].
    intros [= <- <-]. rewrite (assoc_L (++)).
    eapply IH; [by eapply handle_wf| |exact Hr].
    by eapply handle_recorded_was_settled.
Qed.

(** X16. In a run from the initial state, an invalid done call emitted by
    a finalized event, at whatever block of its walk, was preceded by an
    invalid settled call for the same transaction at the block the
    finalized event carries. *)
Theorem X16_invalid_done_was_settled events st tr bh st' tr' tx cur :
  run api init events = Some (st, tr) →
  handle api st (Finalized bh) = Some (st', tr') →
  OnTxDone tx (Invalid cur) ∈ tr' →
  OnTxSettled tx (Invalid bh) ∈ tr.
Proof.
  intros Hrun Hfin Hdone. simpl in Hfin.
  pose proof (run_wf api init events st tr init_wf Hrun) as Hwf.
  assert (Hinv : recorded_was_settled st ([] ++ tr)).
  { eapply run_recorded_was_settled; [exact init_wf| |exact Hrun].
    intros t inv b Hget. done. }
  simpl in Hinv.
  destruct (onFinalized_wf_inv api st bh st' tr' Hwf Hfin) as (vis & Htr & _ & _).
  rewrite Htr in Hdone. apply elem_of_app in Hdone as [Hdone|Hdone].
  - apply walk_calls_invalid in Hdone as (pre & post & inv & _ & Hget & _ & _ & Hbh);
      [|done].
    by eapply Hinv.
  - apply list_elem_of_singleton in Hdone. discriminate.
Qed.

End InvalidHistory.

(** X16 at work: T settled invalid in B2, then done invalid at B1 in the
    walk of finalized(B2). *)
Lemma X16_invalid_done_was_settled_witness :
  OnTxSettled "T" (Invalid "B2")
  ∈ [GetBody "B0"; Unpin ["B0"];
     GetBody "B1"; IsTxValid "B1" "T";
     GetBody "B2"; IsTxValid "B2" "T"; OnTxSettled "T" (Invalid "B2")].
Proof.
  apply (X16_invalid_done_was_settled invalid_api
           [Finalized "B0"; NewTransaction "T"; NewBlock "B1" "B0";
            NewBlock "B2" "B1"]
           {| blocks := {["B1" := "B0"; "B2" := "B1"]};
              trackedTransactions := [("T", {["B2"]})];
              lastFinalizedBlock := Some "B0" |}
           _ "B2"
           {| blocks := ∅;
              trackedTransactions := [("T", {["B2"]})];
              lastFinalizedBlock := Some "B2" |}
           [GetBody "B2"; OnTxDone "T" (Invalid "B2");
            GetBody "B1"; OnTxDone "T" (Invalid "B1");
            Unpin ["B2"; "B1"]]
           "T" "B1").
  - vm_compute. reflexivity.
  - vm_compute. reflexivity.
  - by_compute.
Defined.
